(** * Mini-batch windows and top-n sampling of the character RNN notebook

    A shallow embedding of the two functions the notebook
    [simple-RNN/main.ipynb] defines on its own:

    - [get_batches arr batch_size n_steps], the generator of training
      windows, and
    - [pick_top_n preds vocab_size top_n], the draw of the next character
      restricted to the most probable ones.

    Integers are [Z], a one-dimensional integer array is a [list Z] and a
    two-dimensional one a list of rows.  Python exceptions are values of
    [pyerr]. *)

From Stdlib Require Import ZArith QArith Qabs Lia Lqa List Permutation Sorted.
From stdpp Require Import base tactics option list gmap sorting.

Local Open Scope Z_scope.

(** ** Python and numpy primitives *)

Inductive pyerr : Set :=
| ZeroDivisionError
| ValueError
| IndexError.

Module Py.

(** Normalisation of one bound of a slice [a[start:stop]] (step 1) over a
    sequence of [len] items: a negative bound counts from the end, and
    every bound is clipped to [0..len]. *)
Definition clip_index (len i : Z) : Z :=
  if i <? 0 then Z.max 0 (i + len) else Z.min i len.

(** [l[start:stop]]. *)
Definition slice {A : Type} (l : list A) (start stop : Z) : list A :=
  let len := Z.of_nat (length l) in
  let a := clip_index len start in
  let b := clip_index len stop in
  take (Z.to_nat (b - a)) (drop (Z.to_nat a) l).

(** Number of items of [range(start, stop, step)], as CPython computes
    it. *)
Definition range_length (start stop step : Z) : Z :=
  if (0 <? step) && (start <? stop) then 1 + (stop - 1 - start) / step
  else if (step <? 0) && (stop <? start) then 1 + (start - 1 - stop) / (- step)
  else 0.

(** [range(start, stop, step)]; a zero step raises [ValueError]. *)
Definition range (start stop step : Z) : pyerr + list Z :=
  if step =? 0 then inl ValueError
  else inr (fmap (fun i : nat => start + Z.of_nat i * step)
                (seq 0 (Z.to_nat (range_length start stop step)))).

End Py.

Module Np.

(** A two-dimensional array, as the list of its rows. *)
Abbreviation matrix := (list (list Z)).

(** [m.shape[1]] of an array with at least one row. *)
Definition shape1 (m : matrix) : Z :=
  match m with
  | [] => 0
  | r :: _ => Z.of_nat (length r)
  end.

(** [m.shape == (rows, cols)]. *)
Definition has_shape (m : matrix) (rows cols : Z) : Prop :=
  Z.of_nat (length m) = rows /\
  Forall (fun r => Z.of_nat (length r) = cols) m.

(** [arr.reshape((rows, -1))] of a one-dimensional array, in C order: row
    [i] is the [i]-th run of [size / rows] consecutive items.  A negative
    [rows] is a second unknown dimension, a zero one cannot be solved for,
    and a size that [rows] does not divide cannot be reshaped: all three
    raise [ValueError].

    numpy also refuses a shape that is too big for it: the product of the
    dimensions, zeros left out, times the item size has to fit its index
    type, or [reshape] raises [ValueError] even on an array of no items.
    That check is not part of this definition: what is stated of a
    reshape that keeps no item is stated for [rows <= max_rows]. *)
Definition reshape_rows (arr : list Z) (rows : Z) : pyerr + matrix :=
  let size := Z.of_nat (length arr) in
  if rows <=? 0 then inl ValueError
  else if negb (size mod rows =? 0) then inl ValueError
  else
    let cols := Z.to_nat (size / rows) in
    inr (fmap (fun i : nat => take cols (drop (i * cols) arr))
             (seq 0 (Z.to_nat rows))).

(** A number of rows that numpy accepts whatever the number of columns,
    zero included: with the signed 64-bit index type and items of up to 16
    bytes every shape of fewer than [2^59] rows of no item is accepted, and
    the largest 32-bit integer is well below that. *)
Definition max_rows : Z := 2 ^ 31 - 1.

(** [m[:, a:b]]. *)
Definition col_slice (m : matrix) (a b : Z) : matrix :=
  fmap (fun r => Py.slice r a b) m.

(** [np.zeros(m.shape, dtype=m.dtype)]. *)
Definition zeros_like (m : matrix) : matrix :=
  fmap (fun r => replicate (length r) 0) m.

(** [y[:, :src.shape[1]] = src] for [y] and [src] with the same number of
    rows.  The left-hand side is [y] cut to the width [w'] of the two that
    is smaller; [src] is copied when it has that width, broadcast when it
    has width 1 (then [w'] is 0 and nothing is written), and the
    assignment raises [ValueError] otherwise. *)
Definition assign_leading_cols (y src : matrix) : pyerr + matrix :=
  let w := shape1 src in
  let w' := Z.min w (shape1 y) in
  if w =? w' then
    inr (zip_with (fun sr yr => sr ++ drop (length sr) yr) src y)
  else if w =? 1 then inr y
  else inl ValueError.

End Np.

(** ** The batch generator *)

Module Batches.
Import Np.

(** One yielded item: the inputs [x] and the targets [y]. *)
Definition batch : Type := (matrix * matrix)%type.

(** What a consumer that exhausts the generator observes: the batches
    yielded, in order, and the exception that ended the iteration, if
    any. *)
Definition run : Type := (list batch * option pyerr)%type.

(** The body of the [for] loop at window start [n]. *)
Definition window (arr : matrix) (n_steps n : Z) : pyerr + batch :=
  let x := col_slice arr n (n + n_steps) in
  let y_temp := col_slice arr (n + 1) (n + n_steps + 1) in
  let y := zeros_like x in
  match assign_leading_cols y y_temp with
  | inl e => inl e
  | inr y => inr (x, y)
  end.

(** The [for] loop: yield one batch per window start, stop at the first
    exception. *)
Fixpoint windows (arr : matrix) (n_steps : Z) (starts : list Z) : run :=
  match starts with
  | [] => ([], None)
  | n :: starts' =>
      match window arr n_steps n with
      | inl e => ([], Some e)
      | inr b =>
          let '(bs, e) := windows arr n_steps starts' in
          (b :: bs, e)
      end
  end.

Definition get_batches (arr : list Z) (batch_size n_steps : Z) : run :=
  let chars_per_batch := batch_size * n_steps in
  if chars_per_batch =? 0 then ([], Some ZeroDivisionError)
  else
    let n_batches := Z.of_nat (length arr) / chars_per_batch in
    let arr := Py.slice arr 0 (n_batches * chars_per_batch) in
    match reshape_rows arr batch_size with
    | inl e => ([], Some e)
    | inr arr =>
        match Py.range 0 (shape1 arr) n_steps with
        | inl e => ([], Some e)
        | inr starts => windows arr n_steps starts
        end
    end.

(** The rows ("lanes") the windows are cut from: the array after the
    truncation and the reshape. *)
Definition lanes (arr : list Z) (batch_size n_steps : Z) : pyerr + matrix :=
  let chars_per_batch := batch_size * n_steps in
  if chars_per_batch =? 0 then inl ZeroDivisionError
  else
    let n_batches := Z.of_nat (length arr) / chars_per_batch in
    reshape_rows (Py.slice arr 0 (n_batches * chars_per_batch)) batch_size.

(** Window number [k] of width [m], written with list operations: row by
    row, [m] items from position [k * m] on, and for the targets [m] items
    from the next position on, padded with zeros. *)
Definition window_at (rows : matrix) (m k : nat) : batch :=
  ((fun r => take m (drop (k * m) r)) <$> rows,
   (fun r => let t := take m (drop (k * m + 1) r) in
             t ++ replicate (m - length t) 0) <$> rows).

(** Entry [(i, j)] of a two-dimensional array. *)
Definition entry (m : matrix) (i j : nat) : option Z :=
  m !! i ≫= fun r => r !! j.

(** [[lo, lo+1, ..., lo+n-1]] as an array. *)
Definition arange (lo : Z) (n : nat) : list Z :=
  fmap (fun i : nat => lo + Z.of_nat i) (seq 0 n).

End Batches.

(** ** The sampler *)

Module Sampler.

(** *** Arrays in a store

    [np.squeeze] returns a view: a second array object on the buffer of
    its argument.  Buffers therefore live in a store, and an array object
    names its buffer.  Floats are modelled by exact rationals; a quotient
    by zero, which numpy evaluates to [nan] or to an infinity, is
    [NonFinite]. *)

Definition loc : Set := nat.

(** The random source: the uniform samples of [[0, 1)] it is going to
    return, and how many of them are used up. *)
Record world : Type := World {
  heap : gmap loc (list Q);
  entropy : nat -> Q;
  drawn : nat
}.

(** The array [preds] handed to [pick_top_n]: a vector of [V] floats under
    [lead] leading axes of length 1 (shape [(1, ..., 1, V)]; the notebook
    passes the [(1, V)] output of the softmax layer). *)
Record ndarray : Set := NdArray {
  base : loc;
  lead : nat
}.

(** The rank of a squeezed [ndarray]: squeezing drops every axis of
    length 1, hence the vector axis too when [V = 1]. *)
Inductive rank : Set := Rank0 | Rank1.

Record view : Set := View {
  vbase : loc;
  vrank : rank
}.

Inductive float : Type :=
| Finite (q : Q)
| NonFinite.

(** Computations on the store that may raise: the store after the call
    and the value or the exception. *)
Definition M (A : Type) : Type := world -> world * (pyerr + A).

Definition ret {A : Type} (a : A) : M A := fun w => (w, inr a).

Definition raise {A : Type} (e : pyerr) : M A := fun w => (w, inl e).

Definition bind {A B : Type} (m : M A) (k : A -> M B) : M B :=
  fun w =>
    match m w with
    | (w', inl e) => (w', inl e)
    | (w', inr a) => k a w'
    end.

Declare Scope py_scope.
Delimit Scope py_scope with py.
Notation "'let*' x ':=' m 'in' k" := (bind m (fun x => k))
  (at level 10, x name, m at level 100, k at level 200) : py_scope.
Notation "'do' m 'in' k" := (bind m (fun _ => k))
  (at level 10, m at level 100, k at level 200) : py_scope.

Definition buffer (w : world) (l : loc) : list Q := heap w !!! l.

Definition store (l : loc) (b : list Q) (w : world) : world :=
  World (<[l := b]> (heap w)) (entropy w) (drawn w).

Definition shape (w : world) (a : ndarray) : list nat :=
  replicate (lead a) 1%nat ++ [length (buffer w (base a))].

(** [np.squeeze(a)]: the same buffer, the axes of length 1 removed. *)
Definition np_squeeze (a : ndarray) : M view :=
  fun w =>
    match filter (fun d : nat => d ≠ 1%nat) (shape w a) with
    | [] => (w, inr (View (base a) Rank0))
    | _ => (w, inr (View (base a) Rank1))
    end.

(** The items of [b] at the positions [idx] overwritten with 0. *)
Definition set_zero (b : list Q) (idx : list nat) : list Q :=
  foldr (fun i acc => <[i := 0%Q]> acc) b idx.

(** [v[idx] = 0] with an integer index array, written through the view into
    the buffer.  An array of rank 0 takes no index, and an index past the
    end is refused: both raise [IndexError]. *)
Definition setitem_zero (v : view) (idx : list nat) : M unit :=
  fun w =>
    match vrank v with
    | Rank0 => (w, inl IndexError)
    | Rank1 =>
        let b := buffer w (vbase v) in
        if forallb (fun i => i <? length b)%nat idx
        then (store (vbase v) (set_zero b idx) w, inr tt)
        else (w, inl IndexError)
    end.

(** [np.sum(v)], as the exact sum: no rounding, and no overflow to an
    infinity, which the floating-point sum of weights in [[0, 1]] does not
    have either. *)
Definition Qsum (l : list Q) : Q := foldr Qplus 0%Q l.

Definition np_sum (v : view) : M Q :=
  fun w => (w, inr (Qsum (buffer w (vbase v)))).

(** [v / s]: a new array, no buffer of the store is written. *)
Definition fdiv (x s : Q) : float :=
  if Qeq_bool s 0 then NonFinite else Finite (x / s).

Definition np_div (v : view) (s : Q) : M (list float) :=
  fun w => (w, inr (fmap (fun x => fdiv x s) (buffer w (vbase v)))).

(** [np.argsort(v)] for a sorting routine [argsort]; an array of rank 0
    is sorted as the one-item vector it ravels to. *)
Definition np_argsort (argsort : list Q -> list nat) (v : view)
  : M (list nat) :=
  fun w => (w, inr (argsort (buffer w (vbase v)))).

(** *** [np.random.choice(a, 1, p=p)[0]] *)

(** The tolerance on the sum of [p], the square root of the float64
    machine epsilon. *)
Definition atol : Q := 1 # 67108864.

Fixpoint finite_values (p : list float) : option (list Q) :=
  match p with
  | [] => Some []
  | Finite q :: p' => cons q <$> finite_values p'
  | NonFinite :: _ => None
  end.

(** [p.cumsum()]. *)
Fixpoint cumsum_from (acc : Q) (p : list Q) : list Q :=
  match p with
  | [] => []
  | x :: p' => (acc + x)%Q :: cumsum_from (acc + x)%Q p'
  end.

Definition cumsum (p : list Q) : list Q := cumsum_from 0%Q p.

(** [cdf.searchsorted(u, side='right')] on a non-decreasing [cdf]: the
    number of leading items that are at most [u]. *)
Fixpoint searchsorted_right (cdf : list Q) (u : Q) : nat :=
  match cdf with
  | [] => 0%nat
  | c :: cdf' =>
      if Qle_bool c u then S (searchsorted_right cdf' u) else 0%nat
  end.

(** The index drawn for the uniform sample [u]: the cumulated weights are
    divided by their last item, and [u] is located among them.  The
    cumulated weights are exact here and rounded in numpy, so that for a
    sample next to one of them the two can differ by an index; an index
    of weight zero is drawn by neither, and whether an index is returned
    does not depend on it. *)
Definition draw (p : list Q) (u : Q) : nat :=
  let cdf := cumsum p in
  let cdf := fmap (fun c => (c / List.last cdf 0)%Q) cdf in
  searchsorted_right cdf u.

Definition random_sample : M Q :=
  fun w => (World (heap w) (entropy w) (S (drawn w)), inr (entropy w (drawn w))).

(** The checks of the arguments all raise [ValueError]: a population that
    is not positive, a [p] of another size, a [p] with an entry that is
    not finite or is negative, a [p] whose sum is not 1 up to [atol]. *)
Definition np_random_choice (a : Z) (p : list float) : M nat :=
  if a <=? 0 then raise ValueError
  else if negb (Z.of_nat (length p) =? a) then raise ValueError
  else
    match finite_values p with
    | None => raise ValueError
    | Some p =>
        if existsb (fun x => negb (Qle_bool 0 x)) p then raise ValueError
        else if negb (Qle_bool (Qabs (Qsum p - 1)) atol) then raise ValueError
        else
          (let* u := random_sample in
           ret (draw p u))%py
    end.

(** *** [pick_top_n]

    The source's default [top_n=5] is the caller's to pass. *)
Definition pick_top_n (argsort : list Q -> list nat)
    (preds : ndarray) (vocab_size top_n : Z) : M nat :=
  (let* p := np_squeeze preds in
   let* order := np_argsort argsort p in
   do setitem_zero p (Py.slice order 0 (- top_n)) in
   let* s := np_sum p in
   let* p := np_div p s in
   np_random_choice vocab_size p)%py.

(** *** Sorting routines

    [np.argsort] uses an unstable sort by default: which of two equal
    entries comes first is not specified.  [is_argsort p order] is what
    every sorting routine guarantees. *)
Definition is_argsort (p : list Q) (order : list nat) : Prop :=
  order ≡ₚ seq 0 (length p) ∧
  ∀ a b ia ib, (a ≤ b)%nat → order !! a = Some ia → order !! b = Some ib →
               (nth ia p 0 <= nth ib p 0)%Q.

(** One such routine, an insertion sort that keeps equal entries in
    index order. *)
Fixpoint insert_index (p : list Q) (i : nat) (order : list nat) : list nat :=
  match order with
  | [] => [i]
  | j :: order' =>
      if Qle_bool (nth j p 0%Q) (nth i p 0%Q) then j :: insert_index p i order'
      else i :: j :: order'
  end.

Definition stable_argsort (p : list Q) : list nat :=
  fold_left (fun order i => insert_index p i order) (seq 0 (length p)) [].

(** How many leading items of the sort order [order[:-top_n]] selects,
    out of [V]. *)
Definition zeroed_count (V : nat) (top_n : Z) : nat :=
  if 0 <? top_n then (V - Z.to_nat top_n)%nat
  else (Z.to_nat (- top_n) `min` V)%nat.

(** A probability vector: no negative entry, and the entries sum to 1. *)
Definition is_distribution (p : list Q) : Prop :=
  Forall (fun x => 0 <= x)%Q p /\ (Qsum p == 1)%Q.

(** The random source hands out samples of [[0, 1)]. *)
Definition uniform (w : world) : Prop :=
  forall i : nat, (0 <= entropy w i < 1)%Q.

(** A vector with one entry of probability 1, at index [i], and 0
    everywhere else. *)
Definition is_one_hot (p : list Q) (i : nat) : Prop :=
  (exists x, p !! i = Some x /\ x == 1)%Q /\
  forall (j : nat) (y : Q), j <> i -> p !! j = Some y -> (y == 0)%Q.

(** The number of entries of [p] strictly above entry [i]. *)
Definition count_above (p : list Q) (i : nat) : nat :=
  length (filter (fun x => negb (Qle_bool x (nth i p 0%Q))) p).

End Sampler.

(** ** Concrete inputs *)

Module Examples.
Import Sampler.

(** An array of shape [(1, V)] on buffer 0, as the notebook passes it. *)
Definition preds0 : ndarray := NdArray 0%nat 1%nat.

(** A store that holds [b] in buffer 0, and a random source that returns
    [1/2] at every call. *)
Definition world_of (b : list Q) : world :=
  World {[ 0%nat := b ]} (fun _ => 1 # 2)%Q 0%nat.

End Examples.

(** ** The vocabulary

    The cell that reads the corpus builds, from [text], the list [vocab] of
    its characters and the two dictionaries between characters and
    integers, and encodes the text.  A character is its code point; a
    Python [set] is a [gset], a [dict] a [gmap]. *)

Module Vocab.

(** The exceptions of the notebook's own cells: a key that a dictionary
    does not hold, a name that is not bound, or an exception of [pyerr]. *)
Inductive exn : Set :=
| KeyError
| NameError
| Raised (e : pyerr).

(** [d[k]]. *)
Definition getitem `{Countable K} {A : Type} (d : gmap K A) (k : K) : exn + A :=
  match d !! k with
  | Some v => inr v
  | None => inl KeyError
  end.

(** [enumerate(l)], as a list. *)
Definition enumerate {A : Type} (l : list A) : list (Z * A) :=
  imap (fun i x => (Z.of_nat i, x)) l.

(** [sorted(set(text))]. *)
Definition vocab (text : list N) : list N :=
  merge_sort N.le (elements (list_to_set text : gset N)).

(** [{c: i for i, c in enumerate(vocab)}]: the items are stored one after
    the other, a later one replacing an earlier one with the same key. *)
Definition vocab_to_int (text : list N) : gmap N Z :=
  foldl (fun d ic => <[ic.2 := ic.1]> d) ∅ (enumerate (vocab text)).

(** [dict(enumerate(vocab))]. *)
Definition int_to_vocab (text : list N) : gmap Z N :=
  foldl (fun d ic => <[ic.1 := ic.2]> d) ∅ (enumerate (vocab text)).

(** [[d[k] for k in keys]]: the first missing key raises. *)
Fixpoint getitems `{Countable K} {A : Type} (d : gmap K A) (keys : list K)
  : exn + list A :=
  match keys with
  | [] => inr []
  | k :: keys' =>
      match getitem d k with
      | inl e => inl e
      | inr v =>
          match getitems d keys' with
          | inl e => inl e
          | inr vs => inr (v :: vs)
          end
      end
  end.

(** [np.array([vocab_to_int[c] for c in text], dtype=np.int32)]; the codes
    are below the number of code points and fit 32 bits. *)
Definition encoded (text : list N) : exn + list Z :=
  getitems (vocab_to_int text) text.

End Vocab.

(** ** The training cell

    The loop over the epochs and, inside, over the batches.  The session
    belongs to the framework: one training step, [sess.run] on the loss,
    the final state and the optimiser, is a function [step] of the
    session, the recurrent state and the batch fed; [zero_state] is what
    [sess.run(model.initial_state)] returns, and [mean] is [np.mean]. *)

Module Training.
Import Batches.

Section Session.
Context {session rnn loss : Type}.
Variable zero_state : rnn.
Variable step : session -> rnn -> batch -> loss * rnn * session.
Variable mean : list loss -> loss.

(** [for inputs, targets in ...]: every batch is fed with the state the
    previous one left, and its loss is appended to [loss_batch]. *)
Fixpoint run_batches (bs : list batch) (initial_state : rnn) (sess : session)
    (loss_batch : list loss) : rnn * session * list loss :=
  match bs with
  | [] => (initial_state, sess, loss_batch)
  | b :: bs' =>
      let '(l, final_state, sess') := step sess initial_state b in
      run_batches bs' final_state sess' (loss_batch ++ [l])
  end.

(** [for e in range(epochs)]: the session, [loss_batch] and [train_losses]
    when the loop ends, and the exception of [get_batches] that ended it,
    if any. *)
Fixpoint run_epochs (epochs : nat) (encoded : list Z) (batch_size num_steps : Z)
    (sess : session) (loss_batch train_losses : list loss)
  : session * list loss * list loss * option pyerr :=
  match epochs with
  | O => (sess, loss_batch, train_losses, None)
  | S epochs' =>
      let '(bs, raised) := get_batches encoded batch_size num_steps in
      let '(_, sess', loss_batch') :=
        run_batches bs zero_state sess loss_batch in
      match raised with
      | Some e => (sess', loss_batch', train_losses, Some e)
      | None =>
          run_epochs epochs' encoded batch_size num_steps sess' loss_batch'
            (train_losses ++ [mean loss_batch'])
      end
  end.

(** The cell: [loss_batch] and [train_losses] start empty. *)
Definition train (epochs : Z) (encoded : list Z) (batch_size num_steps : Z)
    (sess : session) : session * list loss * list loss * option pyerr :=
  run_epochs (Z.to_nat epochs) encoded batch_size num_steps sess [] [].

End Session.

End Training.

(** ** The sampling cell

    The text is primed with the characters of [prime], and [n_samples]
    characters are drawn one after the other.  The restored network is a
    function [net] of the recurrent state and the input symbol that gives
    the row of predictions and the next state; every [sess.run] returns
    its predictions in a new array of shape [(1, V)]. *)

Module Sampling.
Import Sampler Vocab.

Section Session.
Context {rnn : Type}.
Variable zero_state : rnn.
Variable net : rnn -> Z -> list Q * rnn.
Variable argsort : list Q -> list nat.
Variable text : list N.

(** A new array that holds [b], in a buffer the store does not use. *)
Definition new_array (b : list Q) (w : world) : world * ndarray :=
  let l := fresh (dom (heap w)) in
  (store l b w, NdArray l 1).

(** [predictions, initial_state = sess.run(...)] with [x] fed as input. *)
Definition run_net (initial_state : rnn) (x : Z) (w : world)
  : world * (ndarray * rnn) :=
  let '(p, final_state) := net initial_state x in
  let '(w', predictions) := new_array p w in
  (w', (predictions, final_state)).

(** [for c in prime]: [predictions] is bound from the first character
    on. *)
Fixpoint prime_loop (prime : list N) (initial_state : rnn)
    (predictions : option ndarray) (w : world)
  : world * (exn + (option ndarray * rnn)) :=
  match prime with
  | [] => (w, inr (predictions, initial_state))
  | c :: prime' =>
      match getitem (vocab_to_int text) c with
      | inl e => (w, inl e)
      | inr x =>
          let '(w', (predictions', final_state)) := run_net initial_state x w in
          prime_loop prime' final_state (Some predictions') w'
      end
  end.

(** [c = pick_top_n(preds=predictions, vocab_size=len(vocab))] and
    [samples.append(int_to_vocab[c])]; [top_n] has its default, 5. *)
Definition pick_and_append (predictions : ndarray) (samples : list N) (w : world)
  : world * (exn + (nat * list N)) :=
  match pick_top_n argsort predictions (Z.of_nat (length (vocab text))) 5 w with
  | (w', inl e) => (w', inl (Raised e))
  | (w', inr c) =>
      match getitem (int_to_vocab text) (Z.of_nat c) with
      | inl e => (w', inl e)
      | inr ch => (w', inr (c, samples ++ [ch]))
      end
  end.

(** [for i in range(n_samples)]. *)
Fixpoint sample_loop (n_samples : nat) (c : nat) (initial_state : rnn)
    (samples : list N) (w : world) : world * (exn + list N) :=
  match n_samples with
  | O => (w, inr samples)
  | S n_samples' =>
      let '(w1, (predictions, final_state)) :=
        run_net initial_state (Z.of_nat c) w in
      match pick_and_append predictions samples w1 with
      | (w2, inl e) => (w2, inl e)
      | (w2, inr (c', samples')) =>
          sample_loop n_samples' c' final_state samples' w2
      end
  end.

(** The cell: the characters that are joined and printed. *)
Definition sample (prime : list N) (n_samples : Z) (w : world)
  : world * (exn + list N) :=
  let samples := prime in
  match prime_loop prime zero_state None w with
  | (w1, inl e) => (w1, inl e)
  | (w1, inr (None, _)) => (w1, inl NameError)
  | (w1, inr (Some predictions, initial_state)) =>
      match pick_and_append predictions samples w1 with
      | (w2, inl e) => (w2, inl e)
      | (w2, inr (c, samples')) =>
          sample_loop (Z.to_nat n_samples) c initial_state samples' w2
      end
  end.

End Session.

End Sampling.

(** ** More concrete inputs *)

Module Toys.
Import Batches.

(** The corpus ["hello"] and the string ["he"], as code points. *)
Definition hello : list N := [104; 101; 108; 108; 111]%N.
Definition he : list N := [104; 101]%N.

(** A network over four characters that gives the same row at every call
    and counts the calls in its state. *)
Definition net (s : nat) (x : Z) : list Q * nat :=
  ([1 # 2; 1 # 8; 1 # 4; 1 # 8]%Q, S s).

(** A training step whose loss is the number of steps taken before it. *)
Definition step (sess : nat) (st : nat) (b : batch) : Z * nat * nat :=
  (Z.of_nat sess, S st, S sess).

Definition total (losses : list Z) : Z := foldr Z.add 0 losses.

End Toys.

(** * Properties *)

(** ** Slices and ranges *)

Section PyFacts.
Context {A : Type}.
Implicit Types l : list A.

Lemma slice_nonneg l (a b : Z) :
  0 <= a -> 0 <= b ->
  Py.slice l a b = take (Z.to_nat b - Z.to_nat a) (drop (Z.to_nat a) l).
Proof.
  intros Ha Hb. unfold Py.slice, Py.clip_index.
  destruct (Z.ltb_spec a 0); [lia|]. destruct (Z.ltb_spec b 0); [lia|].
  destruct (Z.le_gt_cases a (Z.of_nat (length l))) as [Hal|Hal].
  - rewrite (Z.min_l a) by lia.
    destruct (Z.le_gt_cases b (Z.of_nat (length l))) as [Hbl|Hbl].
    + rewrite Z.min_l by lia. f_equal. lia.
    + rewrite Z.min_r by lia.
      rewrite !take_ge; [done| |]; rewrite length_drop; lia.
  - rewrite (Z.min_r a) by lia.
    rewrite !(drop_ge l) by lia. by rewrite !take_nil.
Qed.

Lemma slice_prefix l (k : Z) :
  0 <= k -> Py.slice l 0 k = take (Z.to_nat k) l.
Proof.
  intros Hk. rewrite slice_nonneg by lia. simpl. by rewrite Nat.sub_0_r.
Qed.

Lemma slice_negative_stop l (k : Z) :
  0 < k -> Py.slice l 0 (- k) = take (length l - Z.to_nat k) l.
Proof.
  intros Hk. unfold Py.slice, Py.clip_index.
  destruct (Z.ltb_spec (- k) 0); [|lia]. simpl.
  rewrite Z.min_l by lia. simpl. f_equal. lia.
Qed.

End PyFacts.

Lemma range_from_zero (stop step : Z) :
  0 < step -> 0 <= stop ->
  Py.range 0 stop step =
  inr (fmap (fun i : nat => Z.of_nat i * step)
           (seq 0 (Z.to_nat ((stop + step - 1) / step)))).
Proof.
  intros Hs Hst. unfold Py.range, Py.range_length.
  destruct (Z.eqb_spec step 0); [lia|].
  destruct (Z.ltb_spec 0 step); [|lia]. simpl.
  f_equal. destruct (Z.ltb_spec 0 stop).
  - replace (stop + step - 1) with ((stop - 1 - 0) + 1 * step) by lia.
    rewrite Z.div_add by lia. f_equal. f_equal. lia.
  - assert (stop = 0) as -> by lia.
    rewrite (Z.div_small (0 + step - 1)) by lia.
    by rewrite andb_false_r.
Qed.

(** ** The batch generator *)

Import Batches.

Lemma to_nat_of_nat_mul (k : nat) (M : Z) :
  0 <= M -> Z.to_nat (Z.of_nat k * M) = (k * Z.to_nat M)%nat.
Proof. intros HM. rewrite Z2Nat.inj_mul by lia. by rewrite Nat2Z.id. Qed.

Lemma shape1_fmap {A : Type} (f : A -> list Z) (x : A) (l : list A) :
  Np.shape1 (f <$> (x :: l)) = Z.of_nat (length (f x)).
Proof. done. Qed.

Lemma shape1_fmap_le {A : Type} (f g : A -> list Z) (l : list A) :
  (forall r, r ∈ l -> (length (f r) <= length (g r))%nat) ->
  Np.shape1 (f <$> l) <= Np.shape1 (g <$> l).
Proof.
  destruct l as [|r l]; [done|]. intros H. rewrite !shape1_fmap.
  specialize (H r (list_elem_of_here _ _)). lia.
Qed.

Lemma windows_fmap (rows : Np.matrix) (M : Z) (f : Z -> batch) (starts : list Z) :
  (forall n, n ∈ starts -> window rows M n = inr (f n)) ->
  windows rows M starts = (f <$> starts, None).
Proof.
  induction starts as [|n starts IH]; intros Hw; [done|].
  simpl. rewrite Hw by left.
  rewrite IH; [done|]. intros n' Hn'. apply Hw. by right.
Qed.

Section WindowFacts.
Variables (rows : Np.matrix) (M : Z) (K : nat).
Hypothesis HM : 1 <= M.
Hypothesis Hrows : rows <> [].
Hypothesis Hlen : Forall (fun r => length r = (K * Z.to_nat M)%nat) rows.

Lemma shape1_rows : Np.shape1 rows = Z.of_nat K * M.
Proof.
  destruct rows as [|r rows']; [done|]. simpl.
  apply Forall_cons in Hlen as [-> _]. nia.
Qed.

Lemma window_window_at (k : nat) :
  (k < K)%nat ->
  window rows M (Z.of_nat k * M) = inr (window_at rows (Z.to_nat M) k).
Proof.
  intros Hk. unfold window, window_at, Np.col_slice, Np.zeros_like.
  set (m := Z.to_nat M).
  assert (Hx : (fun r : list Z => Py.slice r (Z.of_nat k * M) (Z.of_nat k * M + M))
                 <$> rows
               = (fun r => take m (drop (k * m) r)) <$> rows).
  { apply list_fmap_ext. intros _ r _. rewrite slice_nonneg by nia.
    rewrite to_nat_of_nat_mul by lia. f_equal.
    rewrite Z2Nat.inj_add by nia. rewrite to_nat_of_nat_mul by lia.
    fold m. lia. }
  assert (Hy : (fun r : list Z =>
                  Py.slice r (Z.of_nat k * M + 1) (Z.of_nat k * M + M + 1))
                 <$> rows
               = (fun r => take m (drop (k * m + 1) r)) <$> rows).
  { apply list_fmap_ext. intros _ r _. rewrite slice_nonneg by nia.
    rewrite !Z2Nat.inj_add by nia. rewrite to_nat_of_nat_mul by lia.
    fold m. f_equal. lia. }
  rewrite Hx, Hy. clear Hx Hy.
  unfold Np.assign_leading_cols. rewrite <- list_fmap_compose.
  rewrite Z.min_l, Z.eqb_refl.
  - f_equal. f_equal.
    rewrite zip_with_fmap_l, zip_with_fmap_r, zip_with_diag.
    apply list_fmap_ext. intros i r Hr. simpl.
    f_equal. rewrite drop_replicate. f_equal.
    pose proof (proj1 (Forall_lookup _ _) Hlen i r Hr) as Hlr. simpl in Hlr.
    fold m in Hlr. rewrite !length_take, !length_drop, Hlr.
    assert (k * m + m <= K * m)%nat by nia. lia.
  - apply shape1_fmap_le. intros r Hr. simpl.
    rewrite length_replicate, !length_take, !length_drop. lia.
Qed.

End WindowFacts.

(** The windows, for a batch shape within the contract. *)
Section BatchFacts.
Variables (arr : list Z) (N M : Z).
Hypothesis HN : 1 <= N.
Hypothesis HM : 1 <= M.

Let n : nat := Z.to_nat N.
Let m : nat := Z.to_nat M.
Let K : nat := Z.to_nat (Z.of_nat (length arr) / (N * M)).
Let C : nat := (K * m)%nat.

Lemma n_batches_nat : Z.of_nat (length arr) / (N * M) = Z.of_nat K.
Proof.
  subst K. rewrite Z2Nat.id; [done|]. apply Z.div_pos; nia.
Qed.

Lemma kept_le_length : (n * C <= length arr)%nat.
Proof.
  pose proof (Z.mul_div_le (Z.of_nat (length arr)) (N * M)) as H.
  rewrite n_batches_nat in H. subst C n m. nia.
Qed.

Lemma lanes_rows :
  lanes arr N M = inr ((fun i : nat => take C (drop (i * C) arr)) <$> seq 0 n).
Proof.
  unfold lanes. destruct (Z.eqb_spec (N * M) 0); [nia|].
  rewrite n_batches_nat. rewrite slice_prefix by nia.
  assert (HT : Z.to_nat (Z.of_nat K * (N * M)) = (n * C)%nat).
  { subst C n m. nia. }
  rewrite HT. unfold Np.reshape_rows.
  pose proof kept_le_length as Hle.
  rewrite length_take, Nat.min_l by exact Hle.
  destruct (Z.leb_spec N 0); [lia|].
  assert (HnN : Z.of_nat (n * C) = Z.of_nat C * N) by (subst n; lia).
  rewrite HnN, Z.mod_mul by lia. simpl.
  rewrite Z.div_mul by lia. rewrite Nat2Z.id. fold n.
  f_equal. apply list_fmap_ext. intros i j Hj.
  apply lookup_seq in Hj as [-> Hi]. simpl.
  rewrite !take_drop_commute, take_take. do 2 f_equal. nia.
Qed.

Lemma get_batches_lanes :
  get_batches arr N M =
  match lanes arr N M with
  | inl e => ([], Some e)
  | inr rows =>
      match Py.range 0 (Np.shape1 rows) M with
      | inl e => ([], Some e)
      | inr starts => windows rows M starts
      end
  end.
Proof.
  unfold get_batches, lanes. by destruct (N * M =? 0).
Qed.

Lemma lanes_lengths :
  Forall (fun r : list Z => length r = (K * Z.to_nat M)%nat)
         ((fun i : nat => take C (drop (i * C) arr)) <$> seq 0 n).
Proof.
  apply Forall_fmap, Forall_seq. intros i Hi. simpl.
  pose proof kept_le_length. rewrite length_take, length_drop.
  fold m. fold C. nia.
Qed.

Lemma get_batches_windows :
  get_batches arr N M =
  ((fun k : nat =>
      window_at ((fun i : nat => take C (drop (i * C) arr)) <$> seq 0 n) m k)
     <$> seq 0 K, None).
Proof.
  rewrite get_batches_lanes, lanes_rows.
  set (rows := (fun i : nat => take C (drop (i * C) arr)) <$> seq 0 n).
  assert (Hne : rows <> []).
  { subst rows. destruct n eqn:En; [lia|]. done. }
  rewrite (shape1_rows rows M K HM Hne lanes_lengths).
  rewrite range_from_zero by nia.
  replace ((Z.of_nat K * M + M - 1) / M) with (Z.of_nat K).
  2:{ replace (Z.of_nat K * M + M - 1) with ((M - 1) + Z.of_nat K * M) by lia.
      rewrite Z.div_add by lia. rewrite Z.div_small by lia. lia. }
  rewrite Nat2Z.id.
  rewrite (windows_fmap rows M
             (fun z => window_at rows m (Z.to_nat (z / M)))).
  - f_equal. rewrite <- list_fmap_compose. apply list_fmap_ext.
    intros i k Hk. simpl. rewrite Z.div_mul by lia. by rewrite Nat2Z.id.
  - intros z Hz. apply list_elem_of_fmap in Hz as (k & -> & Hk).
    apply elem_of_seq in Hk. rewrite Z.div_mul by lia. rewrite Nat2Z.id.
    apply (window_window_at rows M K HM lanes_lengths). lia.
Qed.

End BatchFacts.

Lemma lane_lookup (arr : list Z) (C i p : nat) :
  (p < C)%nat -> take C (drop (i * C) arr) !! p = arr !! (i * C + p)%nat.
Proof. intros Hp. by rewrite lookup_take_lt, lookup_drop. Qed.

Section WindowEntries.
Variables (rows : Np.matrix) (m k i j : nat) (r : list Z).
Hypothesis Hr : rows !! i = Some r.
Hypothesis Hj : (j < m)%nat.
Hypothesis Hfit : (k * m + m <= length r)%nat.

Lemma window_at_input :
  entry (window_at rows m k).1 i j = r !! (k * m + j)%nat.
Proof.
  unfold entry, window_at. cbn [fst snd]. rewrite list_lookup_fmap, Hr. simpl.
  by rewrite lookup_take_lt, lookup_drop.
Qed.

Lemma window_at_target :
  entry (window_at rows m k).2 i j =
  if decide (k * m + j + 1 < length r)%nat
  then r !! (k * m + j + 1)%nat else Some 0.
Proof.
  unfold entry, window_at. cbn [fst snd]. rewrite list_lookup_fmap, Hr. simpl.
  case_decide as Hlast.
  - rewrite lookup_app_l by (rewrite length_take, length_drop; lia).
    rewrite lookup_take_lt, lookup_drop by lia. f_equal. lia.
  - rewrite lookup_app_r by (rewrite length_take, length_drop; lia).
    apply lookup_replicate_2. rewrite length_take, length_drop. lia.
Qed.

End WindowEntries.

Lemma window_at_shape (rows : Np.matrix) (m k : nat) (N : Z) :
  Z.of_nat (length rows) = N ->
  Forall (fun r : list Z => (k * m + m <= length r)%nat) rows ->
  Np.has_shape (window_at rows m k).1 N (Z.of_nat m) /\
  Np.has_shape (window_at rows m k).2 N (Z.of_nat m).
Proof.
  intros HN Hrows. unfold window_at, Np.has_shape. cbn [fst snd].
  rewrite !length_fmap. repeat split; try done.
  - apply Forall_fmap. eapply Forall_impl; [exact Hrows|]. intros r Hr.
    simpl in *. rewrite length_take, length_drop. lia.
  - apply Forall_fmap. eapply Forall_impl; [exact Hrows|]. intros r Hr.
    simpl in *.
    rewrite length_app, length_replicate, length_take, length_drop. lia.
Qed.

Section BatchClaims.
Variables (arr : list Z) (N M : Z).
Hypothesis HN : 1 <= N.
Hypothesis HM : 1 <= M.

Let n : nat := Z.to_nat N.
Let m : nat := Z.to_nat M.
Let K : nat := Z.to_nat (Z.of_nat (length arr) / (N * M)).
Let C : nat := (K * m)%nat.
Let rows : list (list Z) :=
  (fun i : nat => take C (drop (i * C) arr)) <$> seq 0 n.

Local Lemma batches_eq :
  get_batches arr N M = ((fun k : nat => window_at rows m k) <$> seq 0 K, None).
Proof. exact (get_batches_windows arr N M HN HM). Qed.

Local Lemma rows_lookup (i : nat) :
  Z.of_nat i < N ->
  rows !! i = Some (take C (drop (i * C) arr)) /\
  length (take C (drop (i * C) arr)) = C.
Proof.
  intros Hi. split.
  - subst rows. rewrite list_lookup_fmap, lookup_seq_lt by (subst n; lia). done.
  - pose proof (kept_le_length arr N M HN HM) as Hle. fold m K C n in Hle.
    rewrite length_take, length_drop. nia.
Qed.

Local Lemma batches_lookup (k : nat) (b : batch) :
  (get_batches arr N M).1 !! k = Some b <-> (k < K)%nat /\ b = window_at rows m k.
Proof.
  rewrite batches_eq. cbn [fst]. rewrite list_lookup_fmap. split.
  - intros Hb. destruct (seq 0 K !! k) as [k'|] eqn:Ek; [|done].
    apply lookup_seq in Ek as [-> ?]. simpl in Hb. by inversion Hb.
  - intros [Hk ->]. by rewrite lookup_seq_lt.
Qed.

(** C1: for [N >= 1], [M >= 1] and [len(arr) >= N*M], [get_batches]
    yields exactly [len(arr) // (N*M)] batches and raises nothing, and in
    every batch both the inputs and the targets have shape [(N, M)]. *)
Theorem get_batches_count_and_shape :
  N * M <= Z.of_nat (length arr) ->
  exists bs : list batch,
    get_batches arr N M = (bs, None) /\
    Z.of_nat (length bs) = Z.of_nat (length arr) / (N * M) /\
    Forall (fun b : batch => Np.has_shape b.1 N M /\ Np.has_shape b.2 N M) bs.
Proof.
  intros _. rewrite batches_eq. eexists. split; [reflexivity|]. split.
  - rewrite length_fmap, length_seq. symmetry. apply n_batches_nat; lia.
  - apply Forall_fmap, Forall_seq. intros k Hk. simpl.
    replace M with (Z.of_nat m) at 1 2 by (subst m; lia).
    apply window_at_shape.
    + subst rows. rewrite length_fmap, length_seq. subst n. lia.
    + eapply Forall_impl; [exact (lanes_lengths arr N M HN HM)|].
      intros r Hr. simpl in Hr. rewrite Hr. fold m. nia.
Qed.

(** C2: in every batch the target at [(i, j)] is the symbol that follows
    the input at [(i, j)] in lane [i]: it is the input at [(i, j+1)] for
    [j < M-1]; in the last column it is the first input of lane [i] in the
    next window when there is one, and 0 in the final window. *)
Theorem targets_follow_inputs (k i : nat) (x y : list (list Z)) :
  (get_batches arr N M).1 !! k = Some (x, y) ->
  Z.of_nat i < N ->
  (forall j : nat, Z.of_nat j + 1 < M ->
     exists v, entry y i j = Some v /\ entry x i (j + 1) = Some v) /\
  (forall x' y' : list (list Z),
     (get_batches arr N M).1 !! (k + 1)%nat = Some (x', y') ->
     exists v, entry y i (Z.to_nat M - 1) = Some v /\ entry x' i 0 = Some v) /\
  ((get_batches arr N M).1 !! (k + 1)%nat = None ->
     entry y i (Z.to_nat M - 1) = Some 0) /\
  exists (lanes_ : list (list Z)) (lane : list Z),
    lanes arr N M = inr lanes_ /\ lanes_ !! i = Some lane /\
    forall j : nat, Z.of_nat j < M ->
      (exists v, entry x i j = Some v /\
                 lane !! (k * Z.to_nat M + j)%nat = Some v) /\
      entry y i j =
        if decide (k * Z.to_nat M + j + 1 < length lane)%nat
        then lane !! (k * Z.to_nat M + j + 1)%nat else Some 0.
Proof.
  intros Hb Hi. apply batches_lookup in Hb as [Hk Hb].
  destruct (rows_lookup i Hi) as [Hrow Hlen].
  set (lane := take C (drop (i * C) arr)) in *.
  assert (Hfit : (k * m + m <= length lane)%nat) by (rewrite Hlen; subst C; nia).
  assert (Hx : forall j, (j < m)%nat -> entry x i j = lane !! (k * m + j)%nat).
  { intros j Hj. replace x with (window_at rows m k).1 by (by rewrite <- Hb).
    by apply window_at_input. }
  assert (Hy : forall j, (j < m)%nat ->
             entry y i j = if decide (k * m + j + 1 < length lane)%nat
                           then lane !! (k * m + j + 1)%nat else Some 0).
  { intros j Hj. replace y with (window_at rows m k).2 by (by rewrite <- Hb).
    by apply window_at_target. }
  fold m. repeat split.
  - intros j Hj.
    destruct (lookup_lt_is_Some_2 lane (k * m + (j + 1))%nat) as [v Hv]; [lia|].
    exists v. rewrite Hy, Hx by (subst m; lia).
    rewrite decide_True by lia. split; [|done].
    rewrite <- Hv. f_equal. lia.
  - intros x' y' Hb'. apply batches_lookup in Hb' as [Hk' Hb'].
    assert (Hfit' : ((k + 1) * m + m <= length lane)%nat)
      by (rewrite Hlen; subst C; nia).
    destruct (lookup_lt_is_Some_2 lane ((k + 1) * m + 0)%nat) as [v Hv];
      [subst m; lia|].
    exists v. rewrite Hy by (subst m; lia).
    replace x' with (window_at rows m (k + 1)).1 by (by rewrite <- Hb').
    rewrite (window_at_input rows m (k + 1) i 0 lane Hrow) by (subst m; lia).
    rewrite decide_True by (subst m; lia). split; [|done].
    rewrite <- Hv. f_equal. subst m. lia.
  - intros Hnone. rewrite Hy by (subst m; lia).
    rewrite decide_False; [done|].
    destruct (decide (k + 1 < K)%nat) as [Hlt|Hge].
    + assert (Hsome : (get_batches arr N M).1 !! (k + 1)%nat
                      = Some (window_at rows m (k + 1)))
        by (by apply batches_lookup).
      congruence.
    + rewrite Hlen. subst C m. nia.
  - exists rows, lane. split; [exact (lanes_rows arr N M HN HM)|].
    split; [exact Hrow|]. intros j Hj. split.
    + destruct (lookup_lt_is_Some_2 lane (k * m + j)%nat) as [v Hv];
        [subst m; lia|].
      exists v. rewrite Hx by (subst m; lia). done.
    + apply Hy. subst m. lia.
Qed.

End BatchClaims.

Lemma concat_runs (l : list Z) (C n : nat) :
  concat ((fun i : nat => take C (drop (i * C) l)) <$> seq 0 n) = take (n * C) l.
Proof.
  induction n as [|n IH]; [done|].
  rewrite seq_S, fmap_app, concat_app, IH. simpl.
  rewrite app_nil_r, take_take_drop. f_equal. lia.
Qed.

Lemma run_of_prefix (a b : list Z) (C i T : nat) :
  take T a = take T b -> (i * C + C <= T)%nat ->
  take C (drop (i * C) a) = take C (drop (i * C) b).
Proof.
  intros Hab Hi. rewrite !take_drop_commute. f_equal.
  replace (i * C + C)%nat with ((i * C + C) `min` T)%nat by lia.
  by rewrite <- !take_take, Hab.
Qed.

(** C3: the batches taken together are the truncated sequence cut into
    [N] runs of one length [C = n_batches * M], lane [i] being the [i]-th
    run, lane 0 first: entry [(i, j)] of the inputs of batch [k] is item
    [i * C + k * M + j] of the truncated sequence, with [k * M + j < C],
    and every item of the truncated sequence is met, in the lane, the batch
    and the column that its position gives.  For [arr = [0..19]],
    [batch_size = 2] and [n_steps = 5] the batches are the two listed, the
    first as in the specification, and rows 0 and 1 of their inputs, batch
    after batch, are the lanes [[0..9]] and [[10..19]]. *)
Theorem lanes_row_major :
  (forall (arr : list Z) (N M : Z),
     1 <= N -> 1 <= M ->
     let m := Z.to_nat M in
     let C := (Z.to_nat (Z.of_nat (length arr) / (N * M)) * m)%nat in
     let kept := Py.slice arr 0 (Z.of_nat (length arr) / (N * M) * (N * M)) in
     (forall (k i j : nat) (x y : list (list Z)),
        (get_batches arr N M).1 !! k = Some (x, y) ->
        Z.of_nat i < N -> (j < m)%nat ->
        (k * m + j < C)%nat /\
        exists v : Z,
          entry x i j = Some v /\
          kept !! (i * C + (k * m + j))%nat = Some v) /\
     (forall p : nat,
        (p < length kept)%nat ->
        Z.of_nat (p / C) < N /\
        exists (x y : list (list Z)) (v : Z),
          (get_batches arr N M).1 !! (p mod C / m)%nat = Some (x, y) /\
          entry x (p / C) (p mod C mod m) = Some v /\
          kept !! p = Some v)) /\
  get_batches (arange 0 20) 2 5
  = ([([[0; 1; 2; 3; 4]; [10; 11; 12; 13; 14]],
       [[1; 2; 3; 4; 5]; [11; 12; 13; 14; 15]]);
      ([[5; 6; 7; 8; 9]; [15; 16; 17; 18; 19]],
       [[6; 7; 8; 9; 0]; [16; 17; 18; 19; 0]])], None) /\
  (fun i : nat =>
     concat ((fun b : batch => default [] (b.1 !! i))
               <$> (get_batches (arange 0 20) 2 5).1)) <$> [0; 1]%nat
  = [[0; 1; 2; 3; 4; 5; 6; 7; 8; 9];
     [10; 11; 12; 13; 14; 15; 16; 17; 18; 19]].
Proof.
  split; [|split; reflexivity].
  intros arr N M HN HM m C kept.
  pose proof (n_batches_nat arr N M HN HM) as HK.
  pose proof (kept_le_length arr N M HN HM) as Hle.
  set (K := Z.to_nat (Z.of_nat (length arr) / (N * M))) in *.
  fold m in Hle. fold C in Hle.
  set (n := Z.to_nat N) in *.
  assert (Hm : (1 <= m)%nat) by (subst m; lia).
  assert (Hkept : kept = take (n * C) arr).
  { subst kept. rewrite slice_prefix by nia. f_equal. rewrite HK.
    subst C n m. nia. }
  assert (Hcell : forall k i j : nat,
            (k < K)%nat -> (i < n)%nat -> (j < m)%nat ->
            (k * m + j < C)%nat /\
            exists v : Z,
              entry (window_at
                       ((fun i : nat => take C (drop (i * C) arr))
                          <$> seq 0 n) m k).1 i j = Some v /\
              kept !! (i * C + (k * m + j))%nat = Some v).
  { intros k i j Hk Hi Hj.
    assert (Hp : (k * m + j < C)%nat) by (subst C; nia).
    split; [done|].
    destruct (rows_lookup arr N M HN HM i ltac:(subst n; lia)) as [Hrow Hlen].
    fold m K C n in Hrow, Hlen.
    destruct (lookup_lt_is_Some_2 arr (i * C + (k * m + j))%nat) as [v Hv];
      [nia|].
    exists v. split.
    - rewrite (window_at_input _ m k i j _ Hrow Hj)
        by (rewrite Hlen; subst C; nia).
      by rewrite lane_lookup.
    - rewrite Hkept, lookup_take_lt by nia. done. }
  split.
  - intros k i j x y Hb Hi Hj.
    apply (batches_lookup arr N M HN HM) in Hb as [Hk Hb].
    fold m K C n in Hb.
    replace x with (x, y).1 by done. rewrite Hb.
    apply Hcell; [done|subst n; lia|done].
  - intros p Hp. rewrite Hkept, length_take in Hp.
    assert (HC : (0 < C)%nat) by nia.
    assert (Hi : (p / C < n)%nat)
      by (apply Nat.Div0.div_lt_upper_bound; nia).
    assert (Hq : (p mod C < K * m)%nat) by (apply Nat.mod_upper_bound; lia).
    assert (Hk : (p mod C / m < K)%nat)
      by (apply Nat.Div0.div_lt_upper_bound; nia).
    assert (Hj : (p mod C mod m < m)%nat) by (apply Nat.mod_upper_bound; lia).
    split; [subst n; lia|].
    destruct (Hcell _ _ _ Hk Hi Hj) as [_ (v & Hx & Hv)].
    set (b := window_at _ m (p mod C / m)) in Hx.
    exists b.1, b.2, v. split; [|split].
    + apply (batches_lookup arr N M HN HM). fold m K C n.
      split; [done|]. symmetry. apply surjective_pairing.
    + exact Hx.
    + rewrite <- Hv. f_equal.
      pose proof (Nat.div_mod_eq p C). pose proof (Nat.div_mod_eq (p mod C) m).
      lia.
Qed.

(** C4: when [len(arr) = N*M*K + r] with [0 < r < N*M], the batches are
    those of the first [N*M*K] items alone: whatever stands in the place of
    the last [r] items, and however many (fewer than [N*M]) items stand
    there, every input block and every target block is the same. *)
Theorem truncation_law (arr tail' : list Z) (N M K r : Z) :
  1 <= N -> 1 <= M ->
  Z.of_nat (length arr) = N * M * K + r -> 0 < r < N * M ->
  Z.of_nat (length tail') < N * M ->
  get_batches (take (Z.to_nat (N * M * K)) arr ++ tail') N M
  = get_batches arr N M.
Proof.
  intros HN HM Hlen Hr Htail.
  assert (HK : 0 <= K) by nia.
  set (arr' := take (Z.to_nat (N * M * K)) arr ++ tail').
  assert (Hlen' : Z.of_nat (length arr') = N * M * K + Z.of_nat (length tail')).
  { subst arr'. rewrite length_app, length_take. nia. }
  assert (Hq : Z.of_nat (length arr) / (N * M) = K).
  { symmetry. apply (Z.div_unique_pos _ _ K r); lia. }
  assert (Hq' : Z.of_nat (length arr') / (N * M) = K).
  { symmetry. apply (Z.div_unique_pos _ _ K (Z.of_nat (length tail'))); lia. }
  rewrite !get_batches_windows by done. rewrite Hq, Hq'.
  f_equal. apply list_fmap_ext. intros _ k _. f_equal.
  apply list_fmap_ext. intros j i Hi. apply lookup_seq in Hi as [-> Hi]. simpl.
  apply (run_of_prefix _ _ _ _ (Z.to_nat (N * M * K))); [|nia].
  subst arr'. rewrite take_app_le by (rewrite length_take; lia).
  by rewrite take_idemp.
Qed.

(** C5: when [len(arr) < batch_size * n_steps], no batch is produced; for
    [1 <= batch_size <= max_rows] the generator is just empty, without an
    exception (for a negative [batch_size] the reshape raises). *)
Theorem insufficient_data_yields_nothing (arr : list Z) (N M : Z) :
  Z.of_nat (length arr) < N * M ->
  (get_batches arr N M).1 = [] /\
  (1 <= N <= Np.max_rows -> (get_batches arr N M).2 = None) /\
  (N < 0 -> (get_batches arr N M).2 = Some ValueError).
Proof.
  intros Hlt. destruct (Z.leb_spec 1 N) as [HN|HN].
  - assert (HM : 1 <= M) by nia.
    rewrite get_batches_windows by done. rewrite Z.div_small by lia.
    simpl. split; [done|]. split; [done|lia].
  - assert (HN' : N < 0).
    { destruct (Z.eq_dec N 0) as [->|]; lia. }
    unfold get_batches, Np.reshape_rows.
    destruct (Z.eqb_spec (N * M) 0); [lia|].
    destruct (Z.leb_spec N 0); [|lia].
    simpl. split; [done|]. split; [lia|done].
Qed.

(** ** The sampler *)

Import Sampler.

Local Open Scope Q_scope.

(** *** Sums and cumulated sums of rationals *)

Lemma Qsum_nonneg (p : list Q) :
  Forall (fun x => 0 <= x)%Q p -> (0 <= Qsum p)%Q.
Proof.
  induction 1 as [|x p Hx _ IH]; simpl; [lra|]. lra.
Qed.

Lemma Qsum_lookup_le (p : list Q) (i : nat) (x : Q) :
  Forall (fun x => 0 <= x)%Q p -> p !! i = Some x -> (x <= Qsum p)%Q.
Proof.
  intros Hp. revert i. induction Hp as [|y p Hy Hp IH]; intros i Hi; [done|].
  pose proof (Qsum_nonneg p Hp). destruct i as [|i]; simpl in *.
  - inversion Hi; subst. lra.
  - specialize (IH i Hi). lra.
Qed.

Lemma Qsum_scale (p : list Q) (s : Q) :
  (Qsum ((fun x => x / s) <$> p) == Qsum p / s)%Q.
Proof.
  induction p as [|x p IH]; simpl.
  - unfold Qdiv. lra.
  - rewrite IH. unfold Qdiv. lra.
Qed.

Lemma last_cumsum_from (acc : Q) (p : list Q) :
  p <> [] -> (List.last (cumsum_from acc p) 0 == acc + Qsum p)%Q.
Proof.
  revert acc. induction p as [|x p IH]; intros acc Hne; [done|].
  destruct p as [|y p].
  - simpl. lra.
  - change (List.last (cumsum_from acc (x :: y :: p)) 0)
      with (List.last (cumsum_from (acc + x) (y :: p)) 0).
    rewrite IH by done. simpl. lra.
Qed.

Lemma length_cumsum_from (acc : Q) (p : list Q) :
  length (cumsum_from acc p) = length p.
Proof.
  revert acc. induction p as [|x p IH]; intros acc; simpl; [done|].
  by rewrite IH.
Qed.

Lemma searchsorted_right_le (cdf : list Q) (u : Q) :
  (searchsorted_right cdf u <= length cdf)%nat.
Proof.
  induction cdf as [|c cdf IH]; simpl; [lia|].
  destruct (Qle_bool c u); simpl; lia.
Qed.

Lemma searchsorted_right_all (f : Q -> Q) (l : list Q) (u : Q) :
  l <> [] ->
  searchsorted_right (f <$> l) u = length l ->
  (f (List.last l 0) <= u)%Q.
Proof.
  induction l as [|c l IH]; intros Hne Hall; [done|].
  simpl in Hall. destruct (Qle_bool (f c) u) eqn:Hc; [|done].
  destruct l as [|c' l].
  - simpl. by apply Qle_bool_iff.
  - change (List.last (c :: c' :: l) 0) with (List.last (c' :: l) 0).
    apply IH; [done|]. by inversion Hall.
Qed.

Lemma searchsorted_right_gap (p : list Q) (acc u T : Q) :
  (0 < T)%Q -> (acc / T <= u)%Q ->
  (searchsorted_right ((fun c : Q => (c / T)%Q) <$> cumsum_from acc p) u < length p)%nat ->
  exists x,
    p !! searchsorted_right ((fun c : Q => (c / T)%Q) <$> cumsum_from acc p) u = Some x /\
    (0 < x)%Q.
Proof.
  intros HT. revert acc. induction p as [|x p IH]; intros acc Hacc Hlt.
  - simpl in Hlt. lia.
  - simpl in *. destruct (Qle_bool ((acc + x) / T) u) eqn:Hc.
    + apply Qle_bool_iff in Hc. apply IH; [done|].
      apply Nat.succ_lt_mono in Hlt. exact Hlt.
    + exists x. split; [done|].
      assert (Hu : (u < (acc + x) / T)%Q).
      { apply Qnot_le_lt. intros Hle. apply Qle_bool_iff in Hle. congruence. }
      assert (Hd : (acc / T < (acc + x) / T)%Q) by lra.
      unfold Qdiv in Hd. apply Qmult_lt_r in Hd; [lra|].
      by apply Qinv_lt_0_compat.
Qed.

(** The index drawn has a positive weight. *)
Lemma draw_positive (p : list Q) (u : Q) :
  p <> [] -> (0 < Qsum p)%Q -> (0 <= u < 1)%Q ->
  exists x, p !! draw p u = Some x /\ (0 < x)%Q.
Proof.
  intros Hne Hsum Hu. unfold draw, cumsum.
  pose proof (last_cumsum_from 0 p Hne) as Hlast.
  set (T := List.last (cumsum_from 0 p) 0) in *.
  assert (HT : (0 < T)%Q) by lra.
  apply searchsorted_right_gap; [done| |].
  - unfold Qdiv. lra.
  - pose proof (searchsorted_right_le ((fun c : Q => (c / T)%Q) <$> cumsum_from 0 p) u)
      as Hle.
    rewrite length_fmap in Hle.
    pose proof (length_cumsum_from 0 p) as Hlen.
    rewrite Hlen in Hle.
    destruct (decide (searchsorted_right ((fun c : Q => (c / T)%Q) <$> cumsum_from 0 p) u
                      = length p)) as [Hall|]; [|lia].
    exfalso. rewrite <- Hlen in Hall.
    apply (searchsorted_right_all (fun c : Q => (c / T)%Q)) in Hall.
    + fold T in Hall. assert ((T / T == 1)%Q) by (field; lra). lra.
    + destruct p; [done|]. done.
Qed.

(** *** The store *)

Lemma buffer_store (l : loc) (b : list Q) (w : world) :
  buffer (store l b w) l = b.
Proof. unfold buffer, store. simpl. apply lookup_total_insert_eq. Qed.

Lemma buffer_store_ne (l l' : loc) (b : list Q) (w : world) :
  l <> l' -> buffer (store l b w) l' = buffer w l'.
Proof. intros Hne. unfold buffer, store. simpl. by apply lookup_total_insert_ne. Qed.

Lemma squeeze_shape (lead_ V : nat) :
  filter (fun d : nat => d <> 1%nat) (replicate lead_ 1%nat ++ [V])
  = if decide (V = 1%nat) then [] else [V].
Proof.
  rewrite filter_app.
  assert (Hlead : filter (fun d : nat => d <> 1%nat) (replicate lead_ 1%nat) = []).
  { induction lead_ as [|k IH]; [done|]. simpl.
    rewrite filter_cons_False by (intros H; by apply H). exact IH. }
  rewrite Hlead. simpl. case_decide as HV.
  - subst V. rewrite filter_cons_False by (intros H; by apply H). done.
  - by rewrite filter_cons_True.
Qed.

(** *** The entries that are zeroed *)

Lemma slice_top_n {A : Type} (order : list A) (top_n : Z) :
  Py.slice order 0 (- top_n) = take (zeroed_count (length order) top_n) order.
Proof.
  unfold zeroed_count. destruct (Z.ltb_spec 0 top_n) as [Hpos|Hneg].
  - by apply slice_negative_stop.
  - rewrite slice_prefix by lia.
    destruct (Nat.le_gt_cases (length order) (Z.to_nat (- top_n))) as [Hge|Hlt].
    + rewrite Nat.min_r by lia. by rewrite !take_ge by lia.
    + by rewrite Nat.min_l by lia.
Qed.

Lemma length_set_zero (b : list Q) (idx : list nat) :
  length (set_zero b idx) = length b.
Proof.
  induction idx as [|i idx IH]; [done|]. simpl. by rewrite length_insert.
Qed.

Lemma set_zero_lookup_in (b : list Q) (idx : list nat) (i : nat) :
  i ∈ idx -> (i < length b)%nat -> set_zero b idx !! i = Some 0.
Proof.
  intros Hin Hi. induction idx as [|j idx IH]; [by apply elem_of_nil in Hin|].
  simpl. destruct (decide (j = i)) as [->|Hne].
  - apply list_lookup_insert_eq. by rewrite length_set_zero.
  - rewrite list_lookup_insert_ne by done. apply IH.
    apply elem_of_cons in Hin as [->|]; done.
Qed.

Lemma set_zero_lookup_notin (b : list Q) (idx : list nat) (i : nat) :
  i ∉ idx -> set_zero b idx !! i = b !! i.
Proof.
  intros Hnin. induction idx as [|j idx IH]; [done|].
  simpl. apply not_elem_of_cons in Hnin as [Hne Hnin].
  rewrite list_lookup_insert_ne by done. by apply IH.
Qed.

Lemma set_zero_lookup (b : list Q) (idx : list nat) (i : nat) (x : Q) :
  set_zero b idx !! i = Some x -> x = 0 \/ ((i ∉ idx) /\ b !! i = Some x).
Proof.
  intros Hx. destruct (decide (i ∈ idx)) as [Hin|Hnin].
  - left. apply lookup_lt_Some in Hx as Hi. rewrite length_set_zero in Hi.
    rewrite set_zero_lookup_in in Hx by done. by inversion Hx.
  - right. by rewrite set_zero_lookup_notin in Hx.
Qed.

Lemma set_zero_nonneg (b : list Q) (idx : list nat) :
  Forall (fun x => 0 <= x) b -> Forall (fun x => 0 <= x) (set_zero b idx).
Proof.
  intros Hb. apply Forall_lookup. intros i x Hx.
  apply set_zero_lookup in Hx as [->|[_ Hx]]; [lra|].
  exact (proj1 (Forall_lookup _ _) Hb i x Hx).
Qed.

(** *** Sort orders *)

Lemma filter_none {A : Type} (P : A -> Prop) `{forall x, Decision (P x)}
    (l : list A) :
  Forall (fun x => ~ P x) l -> filter P l = [].
Proof.
  induction 1 as [|x l Hx _ IH]; [done|].
  by rewrite filter_cons_False.
Qed.

Section ArgsortFacts.
Variables (b : list Q) (order : list nat).
Hypothesis Horder : is_argsort b order.

Lemma argsort_length : length order = length b.
Proof.
  destruct Horder as [Hperm _]. apply Permutation_length in Hperm.
  by rewrite length_seq in Hperm.
Qed.

Lemma argsort_NoDup : NoDup order.
Proof.
  destruct Horder as [Hperm _]. rewrite Hperm. apply NoDup_seq.
Qed.

Lemma argsort_elem_of (i : nat) : i ∈ order <-> (i < length b)%nat.
Proof.
  destruct Horder as [Hperm _]. rewrite Hperm, elem_of_seq. lia.
Qed.

Lemma argsort_position (i : nat) :
  (i < length b)%nat -> exists a, order !! a = Some i.
Proof. intros Hi. by apply list_elem_of_lookup_1, argsort_elem_of. Qed.

Lemma argsort_in_range :
  forall z, forallb (fun i => i <? length b)%nat (take z order) = true.
Proof.
  intros z. apply forallb_forall. intros i Hi.
  apply Nat.ltb_lt. apply argsort_elem_of.
  apply list_elem_of_In in Hi. apply elem_of_take in Hi as (a & Ha & _).
  by eapply list_elem_of_lookup_2.
Qed.

(** An index is zeroed exactly when its position in the order is among
    the first [z]. *)
Lemma zeroed_position (z a i : nat) :
  order !! a = Some i -> i ∈ take z order <-> (a < z)%nat.
Proof.
  intros Ha. rewrite elem_of_take. split.
  - intros (a' & Ha' & Hlt).
    by rewrite (NoDup_lookup order a a' i argsort_NoDup Ha Ha').
  - intros Hlt. by exists a.
Qed.

Lemma values_in_order :
  (fun j : nat => nth j b 0) <$> order ≡ₚ b.
Proof.
  destruct Horder as [Hperm _]. rewrite Hperm.
  assert (Hb : (fun j : nat => nth j b 0) <$> seq 0 (length b) = b).
  { apply list_eq. intros i. rewrite list_lookup_fmap.
    destruct (decide (i < length b)%nat) as [Hi|Hi].
    - rewrite lookup_seq_lt by done. simpl.
      destruct (lookup_lt_is_Some_2 b i Hi) as [x Hx].
      by rewrite (nth_lookup_Some _ _ _ _ Hx).
    - rewrite lookup_seq_ge by lia. simpl. symmetry.
      apply lookup_ge_None. lia. }
  by rewrite Hb.
Qed.

(** Fewer entries lie strictly above entry [i] than there are positions
    after [i] in the order. *)
Lemma count_above_position (a i : nat) :
  order !! a = Some i -> (count_above b i + a < length b)%nat.
Proof.
  intros Ha. unfold count_above.
  set (P := fun x : Q => negb (Qle_bool x (nth i b 0))).
  set (values := (fun j : nat => nth j b 0) <$> order).
  assert (Hlen : length (filter P b) = length (filter P values)).
  { apply Permutation_length, (filter_Permutation _). symmetry.
    apply values_in_order. }
  change (length (filter P b) + a < length b)%nat.
  rewrite Hlen, <- (take_drop (S a) values), filter_app, length_app.
  rewrite (filter_none P (take (S a) values)).
  - pose proof (length_filter P (drop (S a) values)) as Hle.
    rewrite length_drop in Hle. subst values.
    rewrite length_fmap, argsort_length in Hle.
    apply lookup_lt_Some in Ha. rewrite argsort_length in Ha. simpl. lia.
  - apply Forall_lookup. intros a' x Hx.
    rewrite lookup_take in Hx. case_decide as Hlt; [|done].
    subst values. rewrite list_lookup_fmap in Hx.
    destruct (order !! a') as [i'|] eqn:Ha'; [|done]. simpl in Hx.
    inversion Hx; subst x. subst P. simpl. intros HP.
    apply negb_True in HP. apply HP. apply Is_true_true, Qle_bool_iff.
    destruct Horder as [_ Hsorted]. apply (Hsorted a' a); [lia|done|done].
Qed.

End ArgsortFacts.

(** *** The checks and the draw of [np.random.choice] *)

Lemma finite_values_fdiv (b : list Q) (s : Q) :
  Qeq_bool s 0 = false ->
  finite_values ((fun x => fdiv x s) <$> b) = Some ((fun x => x / s) <$> b).
Proof.
  intros Hs. induction b as [|x b IH]; [done|].
  rewrite !fmap_cons. unfold fdiv at 1. rewrite Hs. simpl.
  change (finite_values (list_fmap Q float (fun x => fdiv x s) b))
    with (finite_values ((fun x => fdiv x s) <$> b)).
  by rewrite IH.
Qed.

Lemma finite_values_fdiv_zero (b : list Q) (s : Q) :
  Qeq_bool s 0 = true -> b <> [] ->
  finite_values ((fun x => fdiv x s) <$> b) = None.
Proof.
  intros Hs Hb. destruct b as [|x b]; [done|].
  rewrite fmap_cons. unfold fdiv at 1. by rewrite Hs.
Qed.

Lemma nonneg_check (p : list Q) :
  existsb (fun x => negb (Qle_bool 0 x)) p = false <->
  Forall (fun x => 0 <= x) p.
Proof.
  induction p as [|x p IH]; simpl.
  - split; [constructor|done].
  - rewrite orb_false_iff, negb_false_iff, Qle_bool_iff, IH.
    split.
    + intros [Hx Hp]. by constructor.
    + intros Hxp. by apply Forall_cons in Hxp.
Qed.

Lemma np_random_choice_zero_sum (a : Z) (b : list Q) (s : Q) (w : world) :
  Qeq_bool s 0 = true ->
  np_random_choice a ((fun x => fdiv x s) <$> b) w = (w, inl ValueError).
Proof.
  intros Hs. unfold np_random_choice.
  destruct (a <=? 0)%Z eqn:Ha; [done|].
  rewrite length_fmap.
  destruct (Z.eqb_spec (Z.of_nat (length b)) a) as [Hlen|Hlen]; [|done].
  simpl. rewrite finite_values_fdiv_zero; [done|done|].
  intros ->. simpl in Hlen. apply Z.leb_gt in Ha. lia.
Qed.

Lemma np_random_choice_inr (a : Z) (b : list Q) (s : Q) (w w' : world) (c : nat) :
  np_random_choice a ((fun x => fdiv x s) <$> b) w = (w', inr c) ->
  ~ s == 0 /\ b <> [] /\
  Forall (fun x => 0 <= x) ((fun x => x / s) <$> b) /\
  0 < Qsum ((fun x => x / s) <$> b) /\
  c = draw ((fun x => x / s) <$> b) (entropy w (drawn w)) /\
  w' = World (heap w) (entropy w) (S (drawn w)).
Proof.
  destruct (Qeq_bool s 0) eqn:Hs.
  { by rewrite np_random_choice_zero_sum. }
  unfold np_random_choice.
  destruct (a <=? 0)%Z eqn:Ha; [done|]. rewrite length_fmap.
  destruct (Z.eqb_spec (Z.of_nat (length b)) a) as [Hlen|Hlen]; [|done].
  cbn [negb]. rewrite finite_values_fdiv by done.
  destruct (existsb _ _) eqn:Hneg; [done|].
  destruct (Qle_bool _ atol) eqn:Hsum; [|done]. cbn [negb].
  unfold bind, random_sample, ret. intros Hres. inversion Hres; subst w' c.
  apply nonneg_check in Hneg. apply Qle_bool_iff, Qabs_Qle_condition in Hsum.
  unfold atol in Hsum. repeat split; try done.
  - intros Hs0. apply Qeq_bool_iff in Hs0. congruence.
  - intros ->. simpl in Hlen. apply Z.leb_gt in Ha. lia.
  - destruct Hsum as [Hlo _]. lra.
Qed.

Lemma np_random_choice_ok (a : Z) (b : list Q) (w : world) :
  (0 < a)%Z -> Z.of_nat (length b) = a ->
  Forall (fun x => 0 <= x) b -> 0 < Qsum b ->
  np_random_choice a ((fun x => fdiv x (Qsum b)) <$> b) w
  = (World (heap w) (entropy w) (S (drawn w)),
     inr (draw ((fun x => x / Qsum b) <$> b) (entropy w (drawn w)))).
Proof.
  intros Ha Hlen Hb Hs. unfold np_random_choice.
  destruct (Z.leb_spec a 0); [lia|]. rewrite length_fmap.
  destruct (Z.eqb_spec (Z.of_nat (length b)) a); [|done]. cbn [negb].
  assert (Hs0 : Qeq_bool (Qsum b) 0 = false).
  { destruct (Qeq_bool (Qsum b) 0) eqn:E; [|done].
    apply Qeq_bool_iff in E. lra. }
  rewrite finite_values_fdiv by done.
  assert (Hneg : existsb (fun x => negb (Qle_bool 0 x))
                   ((fun x => x / Qsum b) <$> b) = false).
  { apply nonneg_check, Forall_fmap. eapply Forall_impl; [exact Hb|].
    intros x Hx. simpl in *. apply Qle_shift_div_l; [done|lra]. }
  rewrite Hneg.
  assert (Hsum : Qle_bool (Qabs (Qsum ((fun x => x / Qsum b) <$> b) - 1)) atol
                 = true).
  { apply Qle_bool_iff. rewrite Qsum_scale.
    assert (Hone : Qsum b / Qsum b == 1) by (field; lra).
    rewrite Hone. unfold atol. apply Qabs_Qle_condition. split; lra. }
  rewrite Hsum. done.
Qed.

(** *** [pick_top_n], step by step *)

Section PickTopN.
Variable argsort : list Q -> list nat.
Hypothesis argsort_ok : forall p, is_argsort p (argsort p).
Variables (preds : ndarray) (w : world).

Let b : list Q := buffer w (base preds).
Let V : nat := length b.

(** The entries of [preds] after the indexed assignment. *)
Let zeroed (top_n : Z) : list Q :=
  set_zero b (take (zeroed_count V top_n) (argsort b)).

Lemma pick_top_n_rank0 (vocab_size top_n : Z) :
  V = 1%nat ->
  pick_top_n argsort preds vocab_size top_n w = (w, inl IndexError).
Proof.
  intros HV. unfold pick_top_n, bind, np_squeeze, shape.
  fold b. fold V. rewrite squeeze_shape, decide_True by done. done.
Qed.

Lemma pick_top_n_rank1 (vocab_size top_n : Z) :
  V <> 1%nat ->
  pick_top_n argsort preds vocab_size top_n w
  = np_random_choice vocab_size
      ((fun x => fdiv x (Qsum (zeroed top_n))) <$> zeroed top_n)
      (store (base preds) (zeroed top_n) w).
Proof.
  intros HV. unfold pick_top_n, bind at 1, np_squeeze, shape.
  fold b. fold V. rewrite squeeze_shape, decide_False by done.
  unfold bind at 1, np_argsort. cbn [vbase]. fold b.
  unfold bind at 1, setitem_zero. cbn [vbase vrank]. fold b.
  rewrite slice_top_n, (argsort_length b (argsort b) (argsort_ok b)).
  fold V. rewrite (argsort_in_range b (argsort b) (argsort_ok b)).
  unfold bind at 1, np_sum. cbn [vbase]. rewrite buffer_store.
  unfold bind at 1, np_div. cbn [vbase]. rewrite buffer_store. done.
Qed.

(** With fewer than [V] entries zeroed, a probability vector keeps a
    positive sum: its largest entry is kept. *)
Lemma zeroed_sum_positive (top_n : Z) :
  is_distribution b -> (zeroed_count V top_n < V)%nat ->
  Forall (fun x => 0 <= x) (zeroed top_n) /\ 0 < Qsum (zeroed top_n).
Proof.
  intros [Hnn Hsum] Hz. pose proof (argsort_ok b) as Hord.
  assert (Hnn' : Forall (fun x => 0 <= x) (zeroed top_n))
    by (by apply set_zero_nonneg).
  split; [done|].
  assert (Hlast : is_Some (argsort b !! (V - 1)%nat)).
  { apply lookup_lt_is_Some. rewrite (argsort_length b _ Hord). fold V. lia. }
  destruct Hlast as [jm Hjm].
  assert (Hjm_lt : (jm < V)%nat).
  { apply (argsort_elem_of b _ Hord). by eapply list_elem_of_lookup_2. }
  destruct (lookup_lt_is_Some_2 b jm Hjm_lt) as [xm Hxm].
  assert (Hmax : forall j x, b !! j = Some x -> x <= xm).
  { intros j x Hx. apply lookup_lt_Some in Hx as Hj.
    destruct (argsort_position b _ Hord j Hj) as [a Ha].
    apply lookup_lt_Some in Ha as Hlt. rewrite (argsort_length b _ Hord) in Hlt.
    destruct Hord as [_ Hsorted].
    pose proof (Hsorted a (V - 1)%nat j jm ltac:(fold V in Hlt; lia) Ha Hjm) as Hle.
    by rewrite (nth_lookup_Some _ _ _ _ Hx), (nth_lookup_Some _ _ _ _ Hxm) in Hle. }
  assert (Hpos : 0 < xm).
  { apply Qnot_le_lt. intros Hle.
    assert (Hall : Forall (fun x => x <= 0) b).
    { apply Forall_lookup. intros j x Hx. specialize (Hmax j x Hx). simpl. lra. }
    assert (Qsum b <= 0).
    { clear -Hall. induction Hall as [|x l Hx _ IH]; simpl; [lra|]. lra. }
    lra. }
  assert (Hkept : zeroed top_n !! jm = Some xm).
  { unfold zeroed. rewrite set_zero_lookup_notin; [done|].
    rewrite (zeroed_position b _ Hord _ _ _ Hjm). lia. }
  pose proof (Qsum_lookup_le _ _ _ Hnn' Hkept). lra.
Qed.

(** Then the draw goes through. *)
Lemma pick_top_n_returns (vocab_size top_n : Z) :
  is_distribution b -> V <> 1%nat -> Z.of_nat V = vocab_size ->
  (zeroed_count V top_n < V)%nat ->
  pick_top_n argsort preds vocab_size top_n w
  = (World (<[base preds := zeroed top_n]> (heap w)) (entropy w) (S (drawn w)),
     inr (draw ((fun x => x / Qsum (zeroed top_n)) <$> zeroed top_n)
               (entropy w (drawn w)))).
Proof.
  intros Hd HV Hvs Hz. rewrite pick_top_n_rank1 by done.
  destruct (zeroed_sum_positive top_n Hd Hz) as [Hnn Hpos].
  rewrite np_random_choice_ok; [done| | |done|done].
  - lia.
  - unfold zeroed. rewrite length_set_zero. by fold V.
Qed.

(** An index that is returned has a positive weight: it was not zeroed,
    and its entry of [preds] is not zero. *)
Lemma pick_top_n_inr (vocab_size top_n : Z) (w' : world) (c : nat) :
  uniform w ->
  pick_top_n argsort preds vocab_size top_n w = (w', inr c) ->
  V <> 1%nat /\ ~ Qsum (zeroed top_n) == 0 /\
  w' = World (<[base preds := zeroed top_n]> (heap w)) (entropy w) (S (drawn w)) /\
  (c ∉ take (zeroed_count V top_n) (argsort b)) /\
  exists x, b !! c = Some x /\ ~ x == 0.
Proof.
  intros Hu Hres. destruct (decide (V = 1%nat)) as [HV|HV].
  { by rewrite pick_top_n_rank0 in Hres. }
  split; [done|]. rewrite pick_top_n_rank1 in Hres by done.
  apply np_random_choice_inr in Hres
    as (Hs & Hne & Hnn & Hpos & -> & ->).
  split; [done|]. split; [done|].
  destruct (draw_positive ((fun x => x / Qsum (zeroed top_n)) <$> zeroed top_n)
              (entropy w (drawn w))) as (q & Hq & Hq0).
  { by destruct (zeroed top_n). }
  { done. }
  { apply Hu. }
  rewrite list_lookup_fmap in Hq.
  destruct (zeroed top_n !! _) as [y|] eqn:Hy; [|done].
  simpl in Hq. inversion Hq; subst q.
  assert (Hy0 : ~ y == 0).
  { intros Hy0. rewrite Hy0 in Hq0. unfold Qdiv in Hq0.
    rewrite Qmult_0_l in Hq0. lra. }
  apply set_zero_lookup in Hy as [->|[Hnin Hb]]; [by destruct Hy0|].
  split; [done|]. by exists y.
Qed.

End PickTopN.

(** *** The insertion sort is a sorting routine *)

Section StableArgsort.
Variable p : list Q.

Let by_value (i j : nat) : Prop := nth i p 0 <= nth j p 0.

Lemma insert_index_perm (i : nat) (order : list nat) :
  insert_index p i order ≡ₚ i :: order.
Proof.
  induction order as [|j order IH]; [done|]. simpl.
  destruct (Qle_bool (nth j p 0) (nth i p 0)); [|done].
  rewrite IH. apply perm_swap.
Qed.

Lemma insert_index_sorted (i : nat) (order : list nat) :
  StronglySorted by_value order ->
  StronglySorted by_value (insert_index p i order).
Proof.
  induction 1 as [|j order Hsorted IH Hall]; simpl.
  - repeat constructor.
  - destruct (Qle_bool (nth j p 0) (nth i p 0)) eqn:Hji.
    + constructor; [exact IH|]. rewrite insert_index_perm.
      constructor; [|exact Hall]. by apply Qle_bool_iff.
    + assert (Hij : nth i p 0 < nth j p 0).
      { apply Qnot_le_lt. intros Hle. apply Qle_bool_iff in Hle. congruence. }
      constructor; [by constructor|]. constructor.
      * unfold by_value. lra.
      * eapply Forall_impl; [exact Hall|]. intros k Hk.
        unfold by_value in *. lra.
Qed.

Lemma fold_insert_index (l acc : list nat) :
  StronglySorted by_value acc ->
  StronglySorted by_value
    (fold_left (fun order i => insert_index p i order) l acc) /\
  fold_left (fun order i => insert_index p i order) l acc ≡ₚ l ++ acc.
Proof.
  revert acc. induction l as [|i l IH]; intros acc Hacc; [done|].
  simpl. destruct (IH (insert_index p i acc)) as [Hs Hp].
  { by apply insert_index_sorted. }
  split; [done|]. rewrite Hp, insert_index_perm.
  by rewrite Permutation_middle.
Qed.

Lemma sorted_lookup (order : list nat) :
  StronglySorted by_value order ->
  forall a a' ia ia', (a <= a')%nat ->
    order !! a = Some ia -> order !! a' = Some ia' -> by_value ia ia'.
Proof.
  induction 1 as [|j order Hsorted IH Hall]; intros a a' ia ia' Hle Ha Ha'.
  - done.
  - destruct a as [|a], a' as [|a']; simpl in *.
    + inversion Ha; inversion Ha'; subst. unfold by_value. lra.
    + inversion Ha; subst.
      apply (proj1 (Forall_forall _ _) Hall). by eapply list_elem_of_lookup_2.
    + lia.
    + apply (IH a a'); [lia|done|done].
Qed.

Lemma stable_argsort_ok : is_argsort p (stable_argsort p).
Proof.
  destruct (fold_insert_index (seq 0 (length p)) []) as [Hs Hp].
  { constructor. }
  split.
  - unfold stable_argsort. by rewrite Hp, app_nil_r.
  - intros a a' ia ia' Hle Ha Ha'.
    exact (sorted_lookup _ Hs a a' ia ia' Hle Ha Ha').
Qed.

End StableArgsort.

Lemma Qsum_zeros (l : list Q) :
  Forall (fun x => x = 0) l -> Qsum l == 0.
Proof.
  induction 1 as [|x l -> _ IH]; simpl; [done|]. rewrite IH. lra.
Qed.

Lemma np_random_choice_frame (a : Z) (q : list float) (w : world) :
  heap (np_random_choice a q w).1 = heap w /\
  entropy (np_random_choice a q w).1 = entropy w /\
  (drawn (np_random_choice a q w).1 = drawn w \/
   drawn (np_random_choice a q w).1 = S (drawn w)).
Proof.
  unfold np_random_choice.
  destruct (a <=? 0)%Z; [by auto|].
  destruct (negb _); [by auto|].
  destruct (finite_values q) as [p|]; [|by auto].
  destruct (existsb _ p); [by auto|].
  destruct (negb _); [by auto|].
  simpl. auto.
Qed.

(** *** The claims on [pick_top_n] *)

Section SamplerClaims.
Variable argsort : list Q -> list nat.
Hypothesis argsort_ok : forall p, is_argsort p (argsort p).
Variables (preds : ndarray) (w : world).

Let b : list Q := buffer w (base preds).
Let V : nat := length b.

Local Lemma distribution_not_empty : is_distribution b -> V <> 0%nat.
Proof.
  intros [_ Hsum] HV. subst V. destruct b; [|done]. simpl in Hsum. lra.
Qed.

Local Lemma zeroed_eq (top_n : Z) :
  Py.slice (argsort b) 0 (- top_n) = take (zeroed_count V top_n) (argsort b).
Proof.
  rewrite slice_top_n. by rewrite (argsort_length b _ (argsort_ok b)).
Qed.

(** C6, as amended: [top_n] is not checked against [1..vocab_size].  On a
    probability vector of [V <> 1] entries, with [vocab_size = V], the
    call returns an index for every [top_n > -V], so for [top_n = 0] and
    for [top_n > V], and it raises, a [ValueError] of the draw from
    weights that are all zeroed, exactly for [top_n <= -V]. *)
Theorem top_n_is_not_validated (vocab_size top_n : Z) :
  is_distribution b -> V <> 1%nat -> Z.of_nat V = vocab_size ->
  ((- vocab_size < top_n)%Z ->
     exists c, (pick_top_n argsort preds vocab_size top_n w).2 = inr c) /\
  ((top_n <= - vocab_size)%Z ->
     (pick_top_n argsort preds vocab_size top_n w).2 = inl ValueError).
Proof.
  intros Hd HV Hvs. pose proof (distribution_not_empty Hd) as HV0. split.
  - intros Htn. rewrite (pick_top_n_returns argsort argsort_ok) by
      (try done; fold b; fold V; unfold zeroed_count;
       destruct (Z.ltb_spec 0 top_n); lia).
    by eexists.
  - intros Htn. rewrite (pick_top_n_rank1 argsort argsort_ok) by done.
    fold b. fold V.
    assert (Hz : zeroed_count V top_n = V).
    { unfold zeroed_count. destruct (Z.ltb_spec 0 top_n); lia. }
    rewrite Hz, np_random_choice_zero_sum; [done|].
    apply Qeq_bool_iff, Qsum_zeros, Forall_lookup. intros i x Hx.
    apply lookup_lt_Some in Hx as Hi. rewrite length_set_zero in Hi.
    rewrite set_zero_lookup_in in Hx; [by inversion Hx| |done].
    rewrite take_ge by (rewrite (argsort_length b _ (argsort_ok b)); done).
    by apply (argsort_elem_of b _ (argsort_ok b)).
Qed.

(** C7: on a probability vector and for [1 <= k <= vocab_size], an index
    that [pick_top_n] returns has fewer than [k] entries of [preds]
    strictly above its own, and every index with [k] or more entries
    above its own has weight 0 in the renormalised vector; for
    [vocab_size = V <> 1] an index is returned. *)
Theorem drawn_index_among_top_n (vocab_size k : Z) :
  uniform w -> is_distribution b -> (1 <= k <= vocab_size)%Z ->
  (forall (w' : world) (c : nat),
     pick_top_n argsort preds vocab_size k w = (w', inr c) ->
     (c < V)%nat /\ (count_above b c < Z.to_nat k)%nat /\
     forall j : nat, (j < V)%nat -> (Z.to_nat k <= count_above b j)%nat ->
       exists q,
         ((fun x => fdiv x (Qsum (buffer w' (base preds))))
            <$> buffer w' (base preds)) !! j = Some (Finite q) /\
         q == 0) /\
  (V <> 1%nat -> Z.of_nat V = vocab_size ->
   exists (w' : world) (c : nat),
     pick_top_n argsort preds vocab_size k w = (w', inr c)).
Proof.
  intros Hu Hd Hk. pose proof (argsort_ok b) as Hord.
  assert (Hz : zeroed_count V k = (V - Z.to_nat k)%nat).
  { unfold zeroed_count. destruct (Z.ltb_spec 0 k); [done|lia]. }
  assert (Hkept : forall j, (j < V)%nat ->
            j ∉ take (zeroed_count V k) (argsort b) ->
            (count_above b j < Z.to_nat k)%nat).
  { intros j Hj Hnin. destruct (argsort_position b _ Hord j Hj) as [a Ha].
    pose proof (count_above_position b _ Hord a j Ha) as Hcount. fold V in Hcount.
    rewrite (zeroed_position b _ Hord _ _ _ Ha) in Hnin. lia. }
  split.
  - intros w' c Hres.
    apply (pick_top_n_inr argsort argsort_ok) in Hres
      as (HV & Hs & -> & Hnin & x & Hx & Hx0); [|done].
    fold b in Hs, Hnin, Hx. fold V in Hs, Hnin.
    apply lookup_lt_Some in Hx as Hc. fold V in Hc.
    split; [done|]. split; [by apply Hkept|].
    intros j Hj Hcount. unfold buffer. cbn [heap].
    rewrite lookup_total_insert_eq. fold b. fold V.
    rewrite list_lookup_fmap, set_zero_lookup_in.
    + simpl. unfold fdiv.
      destruct (Qeq_bool _ 0) eqn:Hs0; [by apply Qeq_bool_iff in Hs0|].
      eexists. split; [done|]. unfold Qdiv. lra.
    + destruct (decide (j ∈ take (zeroed_count V k) (argsort b))); [done|].
      specialize (Hkept j Hj ltac:(done)). lia.
    + done.
  - intros HV Hvs. pose proof (distribution_not_empty Hd).
    rewrite (pick_top_n_returns argsort argsort_ok) by
      (try done; fold b; fold V; lia).
    by do 2 eexists.
Qed.

(** C9, as amended: [pick_top_n] writes into the caller's [preds].  The
    entries at [argsort(p)[:-top_n]] are set to 0 in place (unless [preds]
    has a single entry); each entry is afterwards what it was or 0, all
    of them are what they were when [top_n = 0] or [top_n >= V], no other
    array of the store changes, and at most one sample of the random
    source is used up. *)
Theorem pick_top_n_writes_preds (vocab_size top_n : Z) :
  let w' := (pick_top_n argsort preds vocab_size top_n w).1 in
  buffer w' (base preds)
  = (if decide (V = 1%nat) then b
     else set_zero b (Py.slice (argsort b) 0 (- top_n))) /\
  (forall i x, b !! i = Some x ->
     buffer w' (base preds) !! i = Some x \/
     buffer w' (base preds) !! i = Some 0) /\
  ((top_n = 0 \/ Z.of_nat V <= top_n)%Z -> buffer w' (base preds) = b) /\
  (forall l, l <> base preds -> heap w' !! l = heap w !! l) /\
  entropy w' = entropy w /\
  (drawn w' = drawn w \/ drawn w' = S (drawn w)).
Proof.
  intros w'.
  assert (Hbuf : buffer w' (base preds)
                 = if decide (V = 1%nat) then b
                   else set_zero b (Py.slice (argsort b) 0 (- top_n))).
  { subst w'. case_decide as HV.
    - by rewrite (pick_top_n_rank0 argsort) by done.
    - rewrite (pick_top_n_rank1 argsort argsort_ok) by done. fold b. fold V.
      unfold buffer at 1.
      rewrite (proj1 (np_random_choice_frame _ _ _)).
      rewrite zeroed_eq. apply buffer_store. }
  split; [exact Hbuf|]. split; [|split].
  - intros i x Hx. rewrite Hbuf. case_decide; [by left|].
    destruct (decide (i ∈ Py.slice (argsort b) 0 (- top_n))).
    + right. apply set_zero_lookup_in; [done|]. by eapply lookup_lt_Some.
    + left. by rewrite set_zero_lookup_notin.
  - intros Htn. rewrite Hbuf. case_decide; [done|].
    rewrite zeroed_eq.
    assert (Hz : zeroed_count V top_n = 0%nat).
    { unfold zeroed_count. destruct (Z.ltb_spec 0 top_n); lia. }
    by rewrite Hz.
  - subst w'. destruct (decide (V = 1%nat)) as [HV|HV].
    + rewrite (pick_top_n_rank0 argsort) by done. auto.
    + rewrite (pick_top_n_rank1 argsort argsort_ok) by done.
      match goal with
      | |- context [np_random_choice ?a ?q ?w1] =>
          destruct (np_random_choice_frame a q w1) as (Hh & He & Hd)
      end.
      rewrite Hh, He. split; [|split; [done|exact Hd]].
      intros l Hl. unfold store. cbn [heap]. by rewrite lookup_insert_ne.
Qed.

End SamplerClaims.

Lemma Qsum_Qeq_zeros (l : list Q) :
  Forall (fun x => x == 0) l -> Qsum l == 0.
Proof.
  induction 1 as [|x l Hx _ IH]; simpl; [done|]. rewrite Hx, IH. lra.
Qed.

Lemma one_hot_is_distribution (p : list Q) (i : nat) :
  is_one_hot p i -> is_distribution p.
Proof.
  intros [(x & Hx & Hx1) Hrest]. split.
  - apply Forall_lookup. intros j y Hy. simpl.
    destruct (decide (j = i)) as [->|Hne].
    + rewrite Hx in Hy. inversion Hy; subst. lra.
    + rewrite (Hrest j y Hne Hy). lra.
  - revert i x Hx Hx1 Hrest. induction p as [|y p IH]; intros i x Hx Hx1 Hrest.
    + done.
    + destruct i as [|i]; simpl in *.
      * inversion Hx; subst y. rewrite Hx1, Qsum_Qeq_zeros; [lra|].
        apply Forall_lookup. intros j z Hz. by apply (Hrest (S j)).
      * rewrite (Hrest 0%nat y) by done. rewrite (IH i x); [lra|done|done|].
        intros j z Hj Hz. apply (Hrest (S j)); [lia|done].
Qed.

(** Vectors of another length than 1. *)
Section BeyondOneEntry.
Variable argsort : list Q -> list nat.
Hypothesis argsort_ok : forall p, is_argsort p (argsort p).
Variables (preds : ndarray) (w : world).
Hypothesis HV : length (buffer w (base preds)) <> 1%nat.

Let b : list Q := buffer w (base preds).

(** The entry of probability 1 is the index returned, whatever the random
    source hands out. *)
Lemma one_hot_is_drawn (i : nat) (top_n : Z) :
  uniform w -> is_one_hot b i -> (1 <= top_n)%Z ->
  exists w', pick_top_n argsort preds (Z.of_nat (length b)) top_n w
             = (w', inr i).
Proof.
  intros Hu Hhot Htn. pose proof (one_hot_is_distribution b i Hhot) as Hd.
  assert (Hne : length b <> 0%nat).
  { destruct Hhot as [(x & Hx & _) _]. apply lookup_lt_Some in Hx. lia. }
  assert (Hz : (zeroed_count (length b) top_n < length b)%nat).
  { unfold zeroed_count. destruct (Z.ltb_spec 0 top_n); lia. }
  pose proof (pick_top_n_returns argsort argsort_ok preds w
                (Z.of_nat (length b)) top_n Hd HV eq_refl Hz) as Hres.
  set (c := draw _ _) in Hres.
  apply (pick_top_n_inr argsort argsort_ok) in Hres as Hinr; [|done].
  destruct Hinr as (_ & _ & _ & _ & x & Hx & Hx0).
  fold b in Hx. destruct Hhot as [_ Hrest].
  destruct (decide (c = i)) as [Hc|Hc].
  - eexists. rewrite Hres. by rewrite Hc.
  - destruct Hx0. by eapply Hrest.
Qed.

(** For [top_n = 0] and for every [top_n >= vocab_size] nothing is zeroed
    on a probability vector of [V <> 1] entries: the call raises nothing,
    [preds] holds what it held, one sample is used, and the index returned
    is one whose entry of [preds] is not zero. *)
Lemma out_of_range_top_n_zeroes_nothing (top_n : Z) :
  uniform w -> is_distribution b ->
  (top_n = 0 \/ Z.of_nat (length b) <= top_n)%Z ->
  exists (c : nat) (x : Q),
    pick_top_n argsort preds (Z.of_nat (length b)) top_n w
    = (World (<[base preds := b]> (heap w)) (entropy w) (S (drawn w)),
       inr c) /\
    b !! c = Some x /\ ~ x == 0.
Proof.
  intros Hu Hd Htn.
  assert (Hne : length b <> 0%nat).
  { intros H0. destruct Hd as [_ Hs]. destruct b; [|done]. simpl in Hs. lra. }
  assert (Hz : zeroed_count (length b) top_n = 0%nat).
  { unfold zeroed_count. destruct (Z.ltb_spec 0 top_n); lia. }
  pose proof (pick_top_n_returns argsort argsort_ok preds w
                (Z.of_nat (length b)) top_n Hd HV eq_refl
                ltac:(fold b; lia)) as Hres.
  set (c := draw _ _) in Hres.
  apply (pick_top_n_inr argsort argsort_ok) in Hres as Hinr; [|done].
  destruct Hinr as (_ & _ & _ & _ & x & Hx & Hx0).
  exists c, x. split; [|done].
  rewrite Hres. fold b. rewrite Hz. done.
Qed.

End BeyondOneEntry.

(** *** A vector of one entry *)

(** C8, at [preds = [1.0]] (under any number of leading axes),
    [vocab_size = 1], [top_n = 1]: the squeeze leaves an array of rank 0,
    the indexed assignment raises [IndexError], and no index is returned,
    whatever the sorting routine. *)
Theorem single_entry_one_hot_raises (argsort : list Q -> list nat) (lead_ : nat) :
  is_one_hot (buffer (Examples.world_of [1]) 0%nat) 0 /\
  pick_top_n argsort (NdArray 0%nat lead_) 1 1 (Examples.world_of [1])
  = (Examples.world_of [1], inl IndexError).
Proof.
  split.
  - split.
    + exists 1. by split.
    + intros j y Hj Hy. destruct j; [done|]. done.
  - by apply pick_top_n_rank0.
Qed.

(** C10, at [preds = [[1.0]]], [vocab_size = 1], [top_n = 5]: the vector
    is a probability vector and [top_n] is at least [vocab_size], yet the
    squeeze leaves an array of rank 0, the indexed assignment raises
    [IndexError] although it has no entry to zero, and no index is
    drawn. *)
Theorem single_entry_top_n_five_raises :
  (1 <= 5)%Z /\
  is_distribution (buffer (Examples.world_of [1]) (base Examples.preds0)) /\
  pick_top_n stable_argsort Examples.preds0 1 5 (Examples.world_of [1])
  = (Examples.world_of [1], inl IndexError).
Proof.
  split; [lia|]. split.
  - split; [|done]. repeat constructor. done.
  - by apply pick_top_n_rank0.
Qed.

(** *** Counterexamples *)

(** C6 as stated fails: [top_n = 0] is outside [1..2], and the call returns
    index 1 without any exception. *)
Lemma top_n_zero_raises_nothing :
  ~ (1 <= 0 <= 2)%Z /\
  (pick_top_n stable_argsort Examples.preds0 2 0
     (Examples.world_of [1 # 2; 1 # 2])).2 = inr 1%nat.
Proof. split; [lia|]. by vm_compute. Qed.

(** C9 as stated fails: after [pick_top_n(preds, 3, top_n=1)] the caller's
    [preds] holds [[1/2, 0, 0]] in place of [[1/2, 1/3, 1/6]]. *)
Lemma preds_is_overwritten :
  buffer (Examples.world_of [1 # 2; 1 # 3; 1 # 6]) (base Examples.preds0)
  = [1 # 2; 1 # 3; 1 # 6] /\
  buffer (pick_top_n stable_argsort Examples.preds0 3 1
            (Examples.world_of [1 # 2; 1 # 3; 1 # 6])).1 (base Examples.preds0)
  = [1 # 2; 0; 0].
Proof. split; by vm_compute. Qed.

(** *** Instances *)

Lemma uniform_world_of (b : list Q) : uniform (Examples.world_of b).
Proof. intros i. simpl. split; [discriminate|reflexivity]. Defined.

Lemma get_batches_count_and_shape_witness :
  exists bs : list batch,
    get_batches (arange 0 23) 2 5 = (bs, None) /\
    Z.of_nat (length bs) = (Z.of_nat (length (arange 0 23)) / (2 * 5))%Z /\
    Forall (fun b : batch => Np.has_shape b.1 2 5 /\ Np.has_shape b.2 2 5) bs.
Proof.
  apply (get_batches_count_and_shape (arange 0 23) 2 5);
    [lia | lia | vm_compute; discriminate].
Defined.

Lemma targets_follow_inputs_witness :
  exists v,
    entry [[1; 2; 3; 4; 5]; [11; 12; 13; 14; 15]]%Z 1 (Z.to_nat 5 - 1) = Some v /\
    entry [[5; 6; 7; 8; 9]; [15; 16; 17; 18; 19]]%Z 1 0 = Some v.
Proof.
  refine (proj1 (proj2
    (targets_follow_inputs (arange 0 23) 2 5 _ _ 0 1
       [[0; 1; 2; 3; 4]; [10; 11; 12; 13; 14]]%Z
       [[1; 2; 3; 4; 5]; [11; 12; 13; 14; 15]]%Z _ _))
    [[5; 6; 7; 8; 9]; [15; 16; 17; 18; 19]]%Z
    [[6; 7; 8; 9; 0]; [16; 17; 18; 19; 0]]%Z _);
    [lia | lia | reflexivity | lia | reflexivity].
Defined.

Lemma truncation_law_witness :
  get_batches (take (Z.to_nat (2 * 5 * 2)) (arange 0 23) ++ [100; 200]%Z) 2 5
  = get_batches (arange 0 23) 2 5.
Proof.
  apply (truncation_law (arange 0 23) [100; 200]%Z 2 5 2 3);
    [lia | lia | reflexivity | lia | simpl; lia].
Defined.

Lemma insufficient_data_yields_nothing_witness :
  (get_batches (arange 0 9) 2 5).1 = [] /\
  ((1 <= 2 <= Np.max_rows)%Z -> (get_batches (arange 0 9) 2 5).2 = None) /\
  ((2 < 0)%Z -> (get_batches (arange 0 9) 2 5).2 = Some ValueError).
Proof.
  apply (insufficient_data_yields_nothing (arange 0 9) 2 5). simpl. lia.
Defined.

Lemma top_n_is_not_validated_witness :
  (exists c, (pick_top_n stable_argsort Examples.preds0 2 0
                (Examples.world_of [1 # 2; 1 # 2])).2 = inr c) /\
  (pick_top_n stable_argsort Examples.preds0 2 (-2)
     (Examples.world_of [1 # 2; 1 # 2])).2 = inl ValueError.
Proof.
  assert (Hd : is_distribution
                 (buffer (Examples.world_of [1 # 2; 1 # 2]) (base Examples.preds0))).
  { split; [|reflexivity]. repeat constructor; discriminate. }
  split.
  - apply (top_n_is_not_validated stable_argsort stable_argsort_ok
             Examples.preds0 (Examples.world_of [1 # 2; 1 # 2]) 2 0 Hd);
      [discriminate | reflexivity | lia].
  - apply (top_n_is_not_validated stable_argsort stable_argsort_ok
             Examples.preds0 (Examples.world_of [1 # 2; 1 # 2]) 2 (-2) Hd);
      [discriminate | reflexivity | lia].
Defined.

Lemma drawn_index_among_top_n_witness :
  (count_above [1 # 2; 1 # 8; 1 # 4; 1 # 8] 0 < Z.to_nat 2)%nat.
Proof.
  assert (Hd : is_distribution
                 (buffer (Examples.world_of [1 # 2; 1 # 8; 1 # 4; 1 # 8])
                         (base Examples.preds0))).
  { split; [|reflexivity]. repeat constructor; discriminate. }
  refine (proj1 (proj2 (proj1
    (drawn_index_among_top_n stable_argsort stable_argsort_ok
       Examples.preds0 (Examples.world_of [1 # 2; 1 # 8; 1 # 4; 1 # 8]) 4 2
       (uniform_world_of _) Hd _) _ 0%nat _)));
    [lia | reflexivity].
Defined.

Lemma pick_top_n_writes_preds_witness :
  buffer (pick_top_n stable_argsort Examples.preds0 3 1
            (Examples.world_of [1 # 2; 1 # 3; 1 # 6])).1 (base Examples.preds0)
  = set_zero [1 # 2; 1 # 3; 1 # 6]
      (Py.slice (stable_argsort [1 # 2; 1 # 3; 1 # 6]) 0 (- 1)).
Proof.
  exact (proj1 (pick_top_n_writes_preds stable_argsort stable_argsort_ok
                  Examples.preds0 (Examples.world_of [1 # 2; 1 # 3; 1 # 6]) 3 1)).
Defined.


(** ** The vocabulary *)

Import Vocab.

Local Open Scope Z_scope.

Lemma enumerate_snoc {A : Type} (l : list A) (x : A) :
  enumerate (l ++ [x]) = enumerate l ++ [(Z.of_nat (length l), x)].
Proof.
  unfold enumerate. rewrite imap_app. simpl. by rewrite Nat.add_0_r.
Qed.

(** What the two dictionaries hold, for a list without repetition. *)
Lemma to_int_lookup (l : list N) (c : N) (i : Z) :
  NoDup l ->
  foldl (fun (d : gmap N Z) ic => <[ic.2 := ic.1]> d) ∅ (enumerate l) !! c = Some i
  <-> exists n : nat, i = Z.of_nat n /\ l !! n = Some c.
Proof.
  induction l as [|x l IH] using rev_ind; intros Hnd.
  - simpl. rewrite lookup_empty. split; [done|]. by intros (n & _ & Hn).
  - apply NoDup_app in Hnd as (Hnd & Hx & _).
    rewrite enumerate_snoc, foldl_snoc. simpl.
    destruct (decide (x = c)) as [->|Hne].
    + rewrite lookup_insert_eq. split.
      * intros [= <-]. exists (length l). split; [done|].
        by rewrite lookup_app_r, Nat.sub_diag.
      * intros (n & -> & Hn). f_equal. f_equal.
        destruct (decide (n < length l)%nat) as [Hlt|Hge].
        -- rewrite lookup_app_l in Hn by done.
           apply list_elem_of_lookup_2 in Hn. exfalso. apply (Hx c Hn). by left.
        -- apply lookup_lt_Some in Hn. rewrite length_app in Hn. simpl in Hn. lia.
    + rewrite lookup_insert_ne by done. rewrite IH by done. split.
      * intros (n & -> & Hn). exists n. split; [done|].
        rewrite lookup_app_l; [done|]. by eapply lookup_lt_Some.
      * intros (n & -> & Hn). exists n. split; [done|].
        destruct (decide (n < length l)%nat) as [Hlt|Hge].
        -- by rewrite lookup_app_l in Hn.
        -- rewrite lookup_app_r in Hn by lia.
           destruct (n - length l)%nat; simpl in Hn; [|done].
           by inversion Hn.
Qed.

Lemma to_vocab_lookup (l : list N) (i : Z) (c : N) :
  foldl (fun (d : gmap Z N) ic => <[ic.1 := ic.2]> d) ∅ (enumerate l) !! i = Some c
  <-> exists n : nat, i = Z.of_nat n /\ l !! n = Some c.
Proof.
  induction l as [|x l IH] using rev_ind.
  - simpl. rewrite lookup_empty. split; [done|]. by intros (n & _ & Hn).
  - rewrite enumerate_snoc, foldl_snoc. simpl.
    destruct (decide (Z.of_nat (length l) = i)) as [<-|Hne].
    + rewrite lookup_insert_eq. split.
      * intros [= <-]. exists (length l). split; [done|].
        by rewrite lookup_app_r, Nat.sub_diag.
      * intros (n & Hn & Hc). apply Nat2Z.inj in Hn. subst n.
        rewrite lookup_app_r, Nat.sub_diag in Hc by done. simpl in Hc.
        by inversion Hc.
    + rewrite lookup_insert_ne by done. rewrite IH. split.
      * intros (n & -> & Hn). exists n. split; [done|].
        rewrite lookup_app_l; [done|]. by eapply lookup_lt_Some.
      * intros (n & -> & Hn). exists n. split; [done|].
        destruct (decide (n < length l)%nat) as [Hlt|Hge].
        -- by rewrite lookup_app_l in Hn.
        -- apply lookup_lt_Some in Hn as Hlen. rewrite length_app in Hlen.
           simpl in Hlen. assert (n = length l) by lia. subst n. lia.
Qed.

Section VocabFacts.
Variable text : list N.

Lemma vocab_elem_of (c : N) : c ∈ vocab text <-> c ∈ text.
Proof.
  unfold vocab. rewrite merge_sort_Permutation, elem_of_elements.
  apply elem_of_list_to_set.
Qed.

Lemma vocab_NoDup : NoDup (vocab text).
Proof.
  unfold vocab. rewrite merge_sort_Permutation. apply NoDup_elements.
Qed.

Lemma vocab_to_int_lookup (c : N) (i : Z) :
  vocab_to_int text !! c = Some i
  <-> exists n : nat, i = Z.of_nat n /\ vocab text !! n = Some c.
Proof. apply to_int_lookup, vocab_NoDup. Qed.

Lemma int_to_vocab_lookup (i : Z) (c : N) :
  int_to_vocab text !! i = Some c
  <-> exists n : nat, i = Z.of_nat n /\ vocab text !! n = Some c.
Proof. apply to_vocab_lookup. Qed.

(** The characters of [vocab] increase strictly with the position. *)
Lemma vocab_increasing (n n' : nat) (c c' : N) :
  vocab text !! n = Some c -> vocab text !! n' = Some c' ->
  (n < n')%nat -> (c < c')%N.
Proof.
  intros Hn Hn' Hlt.
  assert (Hs : StronglySorted N.le (vocab text)).
  { unfold vocab. apply (StronglySorted_merge_sort _). }
  assert (Hle : (c <= c')%N).
  { clear -Hs Hn Hn' Hlt. revert n n' Hn Hn' Hlt.
    induction Hs as [|x l Hs IH Hall]; intros n n' Hn Hn' Hlt; [done|].
    destruct n as [|n], n' as [|n']; simpl in *; try lia.
    - inversion Hn; subst.
      apply (proj1 (Forall_forall _ _) Hall). by eapply list_elem_of_lookup_2.
    - apply (IH n n'); [done|done|lia]. }
  destruct (decide (c = c')) as [->|Hne]; [|lia].
  pose proof (NoDup_lookup _ _ _ _ vocab_NoDup Hn Hn'). lia.
Qed.

End VocabFacts.

Lemma getitems_inr `{Countable K} {A : Type} (d : gmap K A)
    (keys : list K) (vs : list A) :
  getitems d keys = inr vs <-> Forall2 (fun k v => d !! k = Some v) keys vs.
Proof.
  revert vs. induction keys as [|k keys IH]; intros vs; simpl.
  - split.
    + intros [= <-]. constructor.
    + intros Hvs. by inversion Hvs.
  - unfold getitem. destruct (d !! k) as [v|] eqn:Hk.
    + destruct (getitems d keys) as [e|vs'] eqn:Hrec.
      * split; [done|]. intros Hvs. inversion Hvs as [|? v' ? vs'' ? Hrest]; subst.
        by apply IH in Hrest.
      * split.
        -- intros [= <-]. constructor; [done|]. by apply IH.
        -- intros Hvs. inversion Hvs as [|? v' ? vs'' Hv Hrest]; subst.
           apply IH in Hrest. congruence.
    + split; [done|]. intros Hvs. inversion Hvs; subst. congruence.
Qed.

Section VocabClaims.
Variable text : list N.

Local Lemma to_int_to_vocab (c : N) (i : Z) :
  vocab_to_int text !! c = Some i <-> int_to_vocab text !! i = Some c.
Proof. by rewrite vocab_to_int_lookup, int_to_vocab_lookup. Qed.

Local Lemma text_has_code (c : N) :
  c ∈ text -> exists i, vocab_to_int text !! c = Some i.
Proof.
  intros Hc. apply vocab_elem_of, list_elem_of_lookup_1 in Hc as [n Hn].
  exists (Z.of_nat n). apply vocab_to_int_lookup. by exists n.
Qed.

(** X1: encoding the text never raises [KeyError], and looking the codes
    up in [int_to_vocab], one by one, gives the text back. *)
Theorem encoded_round_trip :
  exists enc : list Z,
    encoded text = inr enc /\
    length enc = length text /\
    getitems (int_to_vocab text) enc = inr text.
Proof.
  set (code := fun c : N => default 0 (vocab_to_int text !! c)).
  assert (Henc : Forall2 (fun c i => vocab_to_int text !! c = Some i)
                   text (code <$> text)).
  { apply Forall2_fmap_r, Forall_Forall2_diag, Forall_forall. intros c Hc.
    destruct (text_has_code c Hc) as [i Hi]. subst code. simpl. by rewrite Hi. }
  exists (code <$> text). split; [by apply getitems_inr|].
  split; [by rewrite length_fmap|].
  apply getitems_inr, Forall2_flip.
  eapply Forall2_impl; [exact Henc|]. intros c i Hi. by apply to_int_to_vocab.
Qed.

Local Lemma encoded_code_bound (enc : list Z) (z : Z) :
  encoded text = inr enc -> z ∈ enc ->
  0 <= z < Z.of_nat (length (vocab text)).
Proof.
  intros Henc Hz. apply getitems_inr in Henc.
  apply list_elem_of_lookup_1 in Hz as [k Hk].
  destruct (Forall2_lookup_r _ _ _ _ _ Henc Hk) as (c & _ & Hc).
  apply vocab_to_int_lookup in Hc as (n & -> & Hn).
  apply lookup_lt_Some in Hn. lia.
Qed.

(** X2: the codes of the encoded text are exactly the integers of
    [[0, V)], where [V = len(vocab)] is the number of distinct characters
    of the text. *)
Theorem encoded_codes_are_dense (enc : list Z) :
  encoded text = inr enc ->
  length (vocab text) = size (list_to_set text : gset N) /\
  forall z : Z, z ∈ enc <-> 0 <= z < Z.of_nat (length (vocab text)).
Proof.
  intros Henc. split.
  - unfold vocab. by rewrite merge_sort_Permutation.
  - intros z. split; [by apply encoded_code_bound|].
    intros Hz. apply getitems_inr in Henc.
    destruct (lookup_lt_is_Some_2 (vocab text) (Z.to_nat z)) as [c Hc]; [lia|].
    assert (Hin : c ∈ text).
    { apply vocab_elem_of. by eapply list_elem_of_lookup_2. }
    apply list_elem_of_lookup_1 in Hin as [k Hk].
    destruct (Forall2_lookup_l _ _ _ _ _ Henc Hk) as (i & Hi & Hci).
    apply vocab_to_int_lookup in Hci as (n & -> & Hn).
    pose proof (NoDup_lookup _ _ _ _ (vocab_NoDup text) Hn Hc) as ->.
    rewrite Z2Nat.id in Hi by lia. by eapply list_elem_of_lookup_2.
Qed.

(** X3: [vocab_to_int] preserves the order: of two characters of the text,
    the smaller one has the smaller code. *)
Theorem vocab_to_int_order_preserving (c c' : N) (i i' : Z) :
  vocab_to_int text !! c = Some i ->
  vocab_to_int text !! c' = Some i' ->
  ((c < c')%N <-> i < i').
Proof.
  intros Hc Hc'.
  apply vocab_to_int_lookup in Hc as (n & -> & Hn).
  apply vocab_to_int_lookup in Hc' as (n' & -> & Hn').
  split.
  - intros Hlt. destruct (decide (n < n')%nat) as [|Hge]; [lia|].
    destruct (decide (n = n')) as [->|Hne].
    + rewrite Hn in Hn'. inversion Hn'; subst. lia.
    + pose proof (vocab_increasing text n' n c' c Hn' Hn ltac:(lia)). lia.
  - intros Hlt. apply (vocab_increasing text n n'); [done|done|lia].
Qed.

(** X4: the two dictionaries are inverse to one another, [vocab_to_int[c]]
    raises [KeyError] exactly for a character that the text does not
    contain, and [int_to_vocab[i]] exactly for an [i] outside [[0, V)]. *)
Theorem dictionaries_inverse_and_missing_keys :
  (forall (c : N) (i : Z),
     getitem (vocab_to_int text) c = inr i <->
     getitem (int_to_vocab text) i = inr c) /\
  (forall c : N, getitem (vocab_to_int text) c = inl KeyError <-> c ∉ text) /\
  (forall i : Z,
     getitem (int_to_vocab text) i = inl KeyError <->
     ~ (0 <= i < Z.of_nat (length (vocab text)))).
Proof.
  split; [|split].
  - intros c i. unfold getitem.
    destruct (vocab_to_int text !! c) as [j|] eqn:Hc;
      destruct (int_to_vocab text !! i) as [c'|] eqn:Hi.
    + split; intros [= <-].
      * apply to_int_to_vocab in Hc. congruence.
      * apply to_int_to_vocab in Hi. congruence.
    + split; [|done]. intros [= <-]. apply to_int_to_vocab in Hc. congruence.
    + split; [done|]. intros [= <-]. apply to_int_to_vocab in Hi. congruence.
    + done.
  - intros c. unfold getitem.
    destruct (vocab_to_int text !! c) as [i|] eqn:Hc.
    + split; [done|]. intros Hnin. destruct Hnin.
      apply vocab_to_int_lookup in Hc as (n & _ & Hn).
      apply vocab_elem_of. by eapply list_elem_of_lookup_2.
    + split; [|done]. intros _ Hin.
      destruct (text_has_code c Hin) as [i Hi]. congruence.
  - intros i. unfold getitem.
    destruct (int_to_vocab text !! i) as [c|] eqn:Hi.
    + split; [done|]. intros Hout. destruct Hout.
      apply int_to_vocab_lookup in Hi as (n & -> & Hn).
      apply lookup_lt_Some in Hn. lia.
    + split; [|done]. intros _ Hin.
      destruct (lookup_lt_is_Some_2 (vocab text) (Z.to_nat i)) as [c Hc]; [lia|].
      assert (int_to_vocab text !! i = Some c); [|congruence].
      apply int_to_vocab_lookup. exists (Z.to_nat i). split; [lia|done].
Qed.

End VocabClaims.

(** ** More on the batch generator *)


Section Reassembly.
Variables (arr : list Z) (N M : Z).
Hypothesis HN : 1 <= N.
Hypothesis HM : 1 <= M.

Let n : nat := Z.to_nat N.
Let m : nat := Z.to_nat M.
Let K : nat := Z.to_nat (Z.of_nat (length arr) / (N * M)).
Let C : nat := (K * m)%nat.
Let rows : list (list Z) :=
  (fun i : nat => take C (drop (i * C) arr)) <$> seq 0 n.

(** Row [i] of every input block, and of every target block. *)
Let input_rows (i : nat) : list (list Z) :=
  (fun b : batch => default [] (b.1 !! i)) <$> (get_batches arr N M).1.
Let target_rows (i : nat) : list (list Z) :=
  (fun b : batch => default [] (b.2 !! i)) <$> (get_batches arr N M).1.

Local Lemma lane_row (i : nat) :
  (i < n)%nat ->
  rows !! i = Some (take C (drop (i * C) arr)) /\
  length (take C (drop (i * C) arr)) = C.
Proof.
  intros Hi. split.
  - subst rows. by rewrite list_lookup_fmap, lookup_seq_lt.
  - pose proof (kept_le_length arr N M HN HM) as Hle. fold m K C n in Hle.
    rewrite length_take, length_drop. nia.
Qed.

Local Lemma input_rows_eq (i : nat) :
  (i < n)%nat ->
  input_rows i
  = (fun k : nat => take m (drop (k * m) (take C (drop (i * C) arr))))
      <$> seq 0 K.
Proof.
  intros Hi. subst input_rows. cbv beta.
  rewrite (get_batches_windows arr N M HN HM). cbn [fst].
  fold m K C n. fold rows. rewrite <- list_fmap_compose.
  apply list_fmap_ext. intros _ k _. simpl.
  by rewrite list_lookup_fmap, (proj1 (lane_row i Hi)).
Qed.

Local Lemma target_rows_eq (i : nat) :
  (i < n)%nat ->
  target_rows i
  = (fun k : nat =>
       take m (drop (k * m) (drop 1 (take C (drop (i * C) arr)) ++ [0])))
      <$> seq 0 K.
Proof.
  intros Hi. subst target_rows. cbv beta.
  rewrite (get_batches_windows arr N M HN HM). cbn [fst].
  fold m K C n. fold rows. rewrite <- list_fmap_compose.
  apply list_fmap_ext. intros j k Hk. apply lookup_seq in Hk as [-> Hk].
  simpl. rewrite list_lookup_fmap, (proj1 (lane_row i Hi)). simpl.
  destruct (lane_row i Hi) as [_ Hlen].
  set (lane := take C (drop (i * C) arr)) in *.
  assert (Hm : (1 <= m)%nat) by (subst m; lia).
  assert (Hfit : (j * m + m <= C)%nat) by (subst C; nia).
  apply list_eq. intros p.
  destruct (decide (p < m)%nat) as [Hp|Hp].
  - rewrite lookup_take_lt, lookup_drop by done.
    destruct (decide (j * m + p + 1 < C)%nat) as [Hin|Hlast].
    + rewrite lookup_app_l by (rewrite length_take, length_drop; lia).
      rewrite lookup_take_lt, lookup_drop by done.
      rewrite lookup_app_l by (rewrite length_drop; lia).
      rewrite lookup_drop. f_equal. lia.
    + rewrite lookup_app_r by (rewrite length_take, length_drop; lia).
      rewrite lookup_app_r by (rewrite length_drop; lia).
      rewrite length_take, !length_drop, Hlen.
      replace (j * m + p - (C - 1))%nat with 0%nat by lia. simpl.
      apply lookup_replicate_2. lia.
  - rewrite (lookup_take_ge _ m p) by lia.
    apply lookup_ge_None.
    rewrite length_app, length_replicate, length_take, length_drop. lia.
Qed.

(** X6: no item of the truncated array is lost, repeated or moved: row [i]
    of the input blocks, batch after batch, is lane [i], and the lanes one
    after the other are [arr[:n_batches * chars_per_batch]]. *)
Theorem inputs_reassemble :
  (forall i : nat, Z.of_nat i < N ->
     concat (input_rows i) = take C (drop (i * C) arr)) /\
  concat ((fun i : nat => concat (input_rows i)) <$> seq 0 n)
  = Py.slice arr 0 (Z.of_nat (length arr) / (N * M) * (N * M)).
Proof.
  assert (Hlane : forall i, (i < n)%nat ->
            concat (input_rows i) = take C (drop (i * C) arr)).
  { intros i Hi. rewrite input_rows_eq by done.
    rewrite concat_runs. fold C. apply take_ge.
    by rewrite (proj2 (lane_row i Hi)). }
  split.
  - intros i Hi. apply Hlane. subst n. lia.
  - rewrite slice_prefix by (apply Z.mul_nonneg_nonneg; [apply Z.div_pos|]; nia).
    transitivity (concat rows).
    + f_equal. subst rows. apply list_fmap_ext. intros j i Hi.
      apply lookup_seq in Hi as [-> Hi]. by apply Hlane.
    + subst rows. rewrite concat_runs. f_equal.
      pose proof (n_batches_nat arr N M HN HM) as HK. fold K in HK.
      rewrite HK. subst C n m. nia.
Qed.

(** X7: when at least one batch is produced, row [i] of the target blocks,
    batch after batch, is lane [i] without its first item and with one 0
    at the end: the zero fill happens once per lane, in the last batch. *)
Theorem targets_reassemble (i : nat) :
  N * M <= Z.of_nat (length arr) -> Z.of_nat i < N ->
  concat (target_rows i) = drop 1 (take C (drop (i * C) arr)) ++ [0].
Proof.
  intros Hlen Hi. assert (Hi' : (i < n)%nat) by (subst n; lia).
  rewrite target_rows_eq by done. rewrite concat_runs. fold C.
  apply take_ge. rewrite length_app, length_drop, (proj2 (lane_row i Hi')).
  simpl.
  assert (1 <= K)%nat; [|subst C m; nia].
  pose proof (n_batches_nat arr N M HN HM) as HK. fold K in HK.
  assert (1 <= Z.of_nat (length arr) / (N * M)); [|lia].
  apply Z.div_le_lower_bound; lia.
Qed.

End Reassembly.

(** X8: the blocks hold symbols: when every item of [arr] lies in [[0, V)],
    so does every entry of every input block and of every target block,
    the zero fill included. *)
Theorem batches_hold_symbols (arr : list Z) (N M V : Z) :
  1 <= N -> 1 <= M ->
  Forall (fun z => 0 <= z < V) arr ->
  Forall (fun b : batch =>
            Forall (Forall (fun z => 0 <= z < V)) b.1 /\
            Forall (Forall (fun z => 0 <= z < V)) b.2)
         (get_batches arr N M).1.
Proof.
  intros HN HM Harr. rewrite (get_batches_windows arr N M HN HM). cbn [fst].
  apply Forall_fmap, Forall_seq. intros k Hk. simpl.
  assert (HV : 0 < V).
  { destruct arr as [|z arr'].
    - simpl in Hk. rewrite Z.div_0_l in Hk by nia. simpl in Hk. lia.
    - apply Forall_cons in Harr as [Hz _]. lia. }
  unfold window_at. cbn [fst snd]. rewrite <- !list_fmap_compose.
  split; apply Forall_fmap, Forall_seq; intros i _; simpl.
  - by apply Forall_take, Forall_drop, Forall_take, Forall_drop.
  - apply Forall_app. split.
    + by apply Forall_take, Forall_drop, Forall_take, Forall_drop.
    + apply Forall_replicate. lia.
Qed.

(** ** More on the sampler *)

Local Open Scope Q_scope.

Lemma searchsorted_right_mono (cdf : list Q) (u u' : Q) :
  u <= u' -> (searchsorted_right cdf u <= searchsorted_right cdf u')%nat.
Proof.
  intros Hu. induction cdf as [|c cdf IH]; simpl; [done|].
  destruct (Qle_bool c u) eqn:Hc; [|lia].
  apply Qle_bool_iff in Hc.
  assert (Hc' : Qle_bool c u' = true) by (apply Qle_bool_iff; lra).
  rewrite Hc'. lia.
Qed.

Lemma draw_mono (p : list Q) (u u' : Q) :
  u <= u' -> (draw p u <= draw p u')%nat.
Proof. intros Hu. unfold draw. by apply searchsorted_right_mono. Qed.

Lemma np_random_choice_outcome (a : Z) (q : list float) (w : world) :
  match (np_random_choice a q w).2 with
  | inr _ => drawn (np_random_choice a q w).1 = S (drawn w)
  | inl e => e = ValueError /\ drawn (np_random_choice a q w).1 = drawn w
  end.
Proof.
  unfold np_random_choice.
  destruct (a <=? 0)%Z; [done|].
  destruct (negb _); [done|].
  destruct (finite_values q) as [p|]; [|done].
  destruct (existsb _ p); [done|].
  destruct (negb _); [done|].
  done.
Qed.

Section SamplerExtras.
Variable argsort : list Q -> list nat.
Hypothesis argsort_ok : forall p, is_argsort p (argsort p).
Variables (preds : ndarray) (w : world).

Let b : list Q := buffer w (base preds).
Let V : nat := length b.
Let zeroed (top_n : Z) : list Q :=
  set_zero b (Py.slice (argsort b) 0 (- top_n)).

Local Lemma zeroed_take (top_n : Z) :
  zeroed top_n = set_zero b (take (zeroed_count V top_n) (argsort b)).
Proof.
  subst zeroed. cbv beta. rewrite slice_top_n.
  by rewrite (argsort_length b _ (argsort_ok b)).
Qed.

(** X9: the draw is monotone in the sample.  Of two calls that find the
    same entries in [preds] and both return an index, the one that is
    handed the larger uniform sample does not return the smaller index,
    whatever the sort routine and the arguments: the index is found by
    locating the sample among the cumulated weights. *)
Theorem pick_top_n_monotone (vocab_size top_n : Z) (w2 : world) (c1 c2 : nat) :
  buffer w2 (base preds) = buffer w (base preds) ->
  entropy w (drawn w) <= entropy w2 (drawn w2) ->
  (pick_top_n argsort preds vocab_size top_n w).2 = inr c1 ->
  (pick_top_n argsort preds vocab_size top_n w2).2 = inr c2 ->
  (c1 <= c2)%nat.
Proof.
  intros Hb Hu H1 H2.
  destruct (decide (V = 1%nat)) as [HV|HV].
  { by rewrite (pick_top_n_rank0 argsort) in H1. }
  rewrite (pick_top_n_rank1 argsort argsort_ok) in H1 by done.
  rewrite (pick_top_n_rank1 argsort argsort_ok) in H2 by (by rewrite Hb).
  rewrite Hb in H2.
  destruct (np_random_choice _ _ (store _ _ w)) as [w1' r1] eqn:E1.
  destruct (np_random_choice _ _ (store _ _ w2)) as [w2' r2] eqn:E2.
  simpl in H1, H2. subst r1 r2.
  apply np_random_choice_inr in E1 as (_ & _ & _ & _ & -> & _).
  apply np_random_choice_inr in E2 as (_ & _ & _ & _ & -> & _).
  by apply draw_mono.
Qed.

(** X10: a call that returns an index has used exactly one sample of the
    random source; a call that raises has used none, and it raises
    [IndexError] when [preds] has a single entry and [ValueError]
    otherwise. *)
Theorem pick_top_n_entropy_and_exceptions (vocab_size top_n : Z) :
  match (pick_top_n argsort preds vocab_size top_n w).2 with
  | inr _ =>
      drawn (pick_top_n argsort preds vocab_size top_n w).1 = S (drawn w)
  | inl e =>
      drawn (pick_top_n argsort preds vocab_size top_n w).1 = drawn w /\
      e = if decide (V = 1%nat) then IndexError else ValueError
  end.
Proof.
  destruct (decide (V = 1%nat)) as [HV|HV].
  - by rewrite (pick_top_n_rank0 argsort) by done.
  - rewrite (pick_top_n_rank1 argsort argsort_ok) by done.
    match goal with
    | |- context [np_random_choice ?a ?q ?w1] =>
        pose proof (np_random_choice_outcome a q w1) as Hout;
        destruct (np_random_choice a q w1) as [w' [e|c]]
    end; simpl in *.
    + by destruct Hout as [-> ->].
    + done.
Qed.

(** X11: on a vector of [V <> 1] entries, all of them in [[0, 1]] (so
    that their floating-point sum is finite), [pick_top_n] raises exactly
    when [vocab_size] is not [V] or the entries that are kept sum to
    zero. *)
Theorem pick_top_n_raises_iff (vocab_size top_n : Z) :
  V <> 1%nat -> Forall (fun x => 0 <= x <= 1) b ->
  (exists e, (pick_top_n argsort preds vocab_size top_n w).2 = inl e)
  <-> vocab_size <> Z.of_nat V \/ Qsum (zeroed top_n) == 0.
Proof.
  intros HV Hin.
  assert (Hnn : Forall (fun x => 0 <= x) b).
  { eapply Forall_impl; [exact Hin|]. by intros x [Hx _]. }
  rewrite (pick_top_n_rank1 argsort argsort_ok) by done.
  fold b. fold V. rewrite <- zeroed_take.
  set (z := zeroed top_n).
  assert (Hlen : length z = V).
  { subst z zeroed. cbv beta. by rewrite length_set_zero. }
  assert (Hznn : Forall (fun x => 0 <= x) z).
  { subst z zeroed. cbv beta. by apply set_zero_nonneg. }
  pose proof (Qsum_nonneg z Hznn) as Hs.
  destruct (Qeq_bool (Qsum z) 0) eqn:Hs0.
  - rewrite np_random_choice_zero_sum by done.
    apply Qeq_bool_iff in Hs0. split; [by right|]. by eexists.
  - assert (Hs1 : ~ Qsum z == 0).
    { intros H0. apply Qeq_bool_iff in H0. congruence. }
    destruct (decide (vocab_size = Z.of_nat V)) as [->|Hvs].
    + assert (HV0 : V <> 0%nat).
      { intros H0. destruct z; [by destruct Hs1|]. simpl in Hlen. lia. }
      rewrite np_random_choice_ok by (try done; lia || lra).
      split; [by intros [e ?]|]. intros [?|?]; done.
    + split; [by left|]. intros _. unfold np_random_choice.
      destruct (vocab_size <=? 0)%Z; [by eexists|].
      rewrite length_fmap, Hlen.
      destruct (Z.eqb_spec (Z.of_nat V) vocab_size); [lia|]. by eexists.
Qed.

(** X12: with [top_n = 1] the draw is the arg max: on a probability vector
    of [V <> 1] entries the index returned is the last one of the sort
    order, whatever the sample of the random source, and no entry of
    [preds] is above its own. *)
Theorem top_one_is_argmax :
  uniform w -> is_distribution b -> V <> 1%nat ->
  exists c : nat,
    argsort b !! (V - 1)%nat = Some c /\
    (pick_top_n argsort preds (Z.of_nat V) 1 w).2 = inr c /\
    forall (j : nat) (x : Q), b !! j = Some x -> x <= nth c b 0.
Proof.
  intros Hu Hd HV. pose proof (argsort_ok b) as Hord.
  assert (HV0 : V <> 0%nat).
  { intros H0. destruct Hd as [_ Hs]. subst V. destruct b; [|done].
    simpl in Hs. lra. }
  assert (Hz : zeroed_count V 1 = (V - 1)%nat) by done.
  pose proof (pick_top_n_returns argsort argsort_ok preds w (Z.of_nat V) 1
                Hd HV eq_refl ltac:(fold b; fold V; lia)) as Hres.
  set (c := draw _ _) in Hres.
  apply (pick_top_n_inr argsort argsort_ok) in Hres as Hinr; [|done].
  destruct Hinr as (_ & _ & _ & Hnin & x & Hx & _).
  fold b in Hnin, Hx. fold V in Hnin. rewrite Hz in Hnin.
  apply lookup_lt_Some in Hx as Hc. fold V in Hc.
  destruct (argsort_position b _ Hord c Hc) as [a Ha].
  apply lookup_lt_Some in Ha as Hlt.
  rewrite (argsort_length b _ Hord) in Hlt. fold V in Hlt.
  rewrite (zeroed_position b _ Hord _ _ _ Ha) in Hnin.
  assert (a = (V - 1)%nat) by lia. subst a.
  exists c. split; [done|]. split; [by rewrite Hres|].
  intros j y Hy. apply lookup_lt_Some in Hy as Hj.
  destruct (argsort_position b _ Hord j Hj) as [a' Ha'].
  apply lookup_lt_Some in Ha' as Hlt'.
  rewrite (argsort_length b _ Hord) in Hlt'. fold V in Hlt'.
  destruct Hord as [_ Hsorted].
  pose proof (Hsorted a' (V - 1)%nat j c ltac:(lia) Ha' Ha) as Hle.
  by rewrite (nth_lookup_Some _ _ _ _ Hy) in Hle.
Qed.

End SamplerExtras.

(** *** Calling [pick_top_n] again on the same array *)

(** Zeroing the [z] smallest entries once more, along any sort order of
    the zeroed vector, only meets entries that are zero already. *)
Lemma rezero_Qeq (b : list Q) (order order' : list nat) (z : nat) :
  Forall (fun x => 0 <= x) b ->
  is_argsort b order ->
  is_argsort (set_zero b (take z order)) order' ->
  Forall2 Qeq (set_zero (set_zero b (take z order)) (take z order'))
              (set_zero b (take z order)).
Proof.
  intros Hnn Hord Hord'. set (b' := set_zero b (take z order)) in *.
  assert (Hlen' : length b' = length b) by apply length_set_zero.
  pose proof (set_zero_nonneg b (take z order) Hnn) as Hnn'. fold b' in Hnn'.
  apply Forall2_same_length_lookup_2; [by rewrite length_set_zero|].
  intros i x y Hx Hy.
  destruct (decide (i ∈ take z order')) as [Hin|Hnin];
    [|rewrite set_zero_lookup_notin in Hx by done;
      rewrite Hx in Hy; by inversion Hy].
  rewrite set_zero_lookup_in in Hx by (by eauto using lookup_lt_Some).
  inversion Hx; subst x.
  pose proof (proj1 (Forall_lookup _ _) Hnn' i y Hy) as Hy0. simpl in Hy0.
  destruct (Qeq_dec 0 y) as [Hzero|Hpos]; [done|]. exfalso.
  apply elem_of_take in Hin as (a & Ha & Haz).
  apply lookup_lt_Some in Ha as HaV.
  rewrite (argsort_length b' _ Hord'), Hlen' in HaV.
  (* the entries from position [a] on are positive, hence not zeroed *)
  assert (Hdisj : forall j, j ∈ drop a order' -> j ∉ take z order).
  { intros j Hj Hjz. apply list_elem_of_lookup_1 in Hj as [p Hp].
    rewrite lookup_drop in Hp.
    assert (Hjlt : (j < length b)%nat).
    { rewrite <- Hlen'. apply (argsort_elem_of b' _ Hord').
      by eapply list_elem_of_lookup_2. }
    pose proof (set_zero_lookup_in b (take z order) j Hjz Hjlt) as Hj0.
    fold b' in Hj0. destruct Hord' as [_ Hsorted].
    pose proof (Hsorted a (a + p)%nat i j ltac:(lia) Ha Hp) as Hle.
    rewrite (nth_lookup_Some _ _ _ _ Hy), (nth_lookup_Some _ _ _ _ Hj0) in Hle.
    lra. }
  assert (Hnd : NoDup (drop a order' ++ take z order)).
  { apply NoDup_app. split; [|split; [exact Hdisj|]].
    - pose proof (argsort_NoDup b' _ Hord') as Hnd'.
      rewrite <- (take_drop a order') in Hnd'.
      by apply NoDup_app in Hnd' as (_ & _ & ?).
    - pose proof (argsort_NoDup b _ Hord) as Hnd0.
      rewrite <- (take_drop z order) in Hnd0.
      by apply NoDup_app in Hnd0 as (? & _ & _). }
  assert (Hsub : forall j, j ∈ drop a order' ++ take z order ->
                           j ∈ seq 0 (length b)).
  { intros j Hj. apply elem_of_seq. split; [lia|]. simpl.
    apply elem_of_app in Hj as [Hj|Hj].
    - rewrite <- Hlen'. apply (argsort_elem_of b' _ Hord').
      apply list_elem_of_lookup_1 in Hj as [p Hp]. rewrite lookup_drop in Hp.
      by eapply list_elem_of_lookup_2.
    - apply (argsort_elem_of b _ Hord).
      apply elem_of_take in Hj as (p & Hp & _). by eapply list_elem_of_lookup_2. }
  pose proof (submseteq_length _ _ (NoDup_submseteq _ _ Hnd Hsub)) as Hcount.
  rewrite length_app, length_drop, length_take, length_seq in Hcount.
  rewrite (argsort_length b' _ Hord'), Hlen', (argsort_length b _ Hord) in Hcount.
  lia.
Qed.

Section SecondCall.
Variable argsort : list Q -> list nat.
Hypothesis argsort_ok : forall p, is_argsort p (argsort p).
Variables (preds : ndarray) (w : world).

Let b : list Q := buffer w (base preds).

Lemma pick_top_n_buffer (vocab_size top_n : Z) :
  length b <> 1%nat ->
  buffer (pick_top_n argsort preds vocab_size top_n w).1 (base preds)
  = set_zero b (take (zeroed_count (length b) top_n) (argsort b)).
Proof.
  intros HV. rewrite (pick_top_n_rank1 argsort argsort_ok) by done. fold b.
  unfold buffer at 1. rewrite (proj1 (np_random_choice_frame _ _ _)).
  apply buffer_store.
Qed.

End SecondCall.

(** X13: a second call on the same array, with the same [top_n], finds
    [preds] as the first call left it: for entries that are not negative,
    the entries it zeroes were zero already. *)
Theorem second_call_leaves_preds (argsort : list Q -> list nat)
    (preds : ndarray) (w : world) (vocab_size vocab_size' top_n : Z) :
  (forall p, is_argsort p (argsort p)) ->
  length (buffer w (base preds)) <> 1%nat ->
  Forall (fun x => 0 <= x) (buffer w (base preds)) ->
  Forall2 Qeq
    (buffer (pick_top_n argsort preds vocab_size' top_n
               (pick_top_n argsort preds vocab_size top_n w).1).1 (base preds))
    (buffer (pick_top_n argsort preds vocab_size top_n w).1 (base preds)).
Proof.
  intros Hok HV Hnn.
  set (w1 := (pick_top_n argsort preds vocab_size top_n w).1).
  assert (Hb1 : buffer w1 (base preds)
                = set_zero (buffer w (base preds))
                    (take (zeroed_count (length (buffer w (base preds))) top_n)
                          (argsort (buffer w (base preds))))).
  { by apply pick_top_n_buffer. }
  assert (Hlen1 : length (buffer w1 (base preds)) = length (buffer w (base preds))).
  { by rewrite Hb1, length_set_zero. }
  rewrite (pick_top_n_buffer argsort Hok preds w1) by (by rewrite Hlen1).
  rewrite Hlen1, Hb1. by apply rezero_Qeq.
Qed.

(** ** The training cell *)

Local Open Scope Z_scope.

Section TrainingFacts.
Context {session rnn loss : Type}.
Variable zero_state : rnn.
Variable step : session -> rnn -> batch -> loss * rnn * session.
Variable mean : list loss -> loss.

Lemma run_batches_appends (bs : list batch) (st : rnn) (sess : session)
    (loss_batch : list loss) :
  exists (st' : rnn) (sess' : session) (ls : list loss),
    Training.run_batches step bs st sess loss_batch
    = (st', sess', loss_batch ++ ls) /\
    length ls = length bs.
Proof.
  revert st sess loss_batch.
  induction bs as [|b bs IH]; intros st sess loss_batch; simpl.
  - exists st, sess, []. by rewrite app_nil_r.
  - destruct (step sess st b) as [[l st1] sess1].
    destruct (IH st1 sess1 (loss_batch ++ [l])) as (st' & sess' & ls & -> & Hls).
    exists st', sess', (l :: ls). split.
    + by rewrite <- app_assoc.
    + simpl. by rewrite Hls.
Qed.

Lemma run_epochs_log (encoded : list Z) (N M : Z) (bs : list batch)
    (epochs : nat) (sess : session) (loss_batch train_losses : list loss) :
  get_batches encoded N M = (bs, None) ->
  exists (sess' : session) (more tls : list loss),
    Training.run_epochs zero_state step mean epochs encoded N M
      sess loss_batch train_losses
    = (sess', loss_batch ++ more, train_losses ++ tls, None) /\
    length more = (epochs * length bs)%nat /\
    length tls = epochs /\
    forall e : nat, (e < epochs)%nat ->
      tls !! e
      = Some (mean (take (length loss_batch + (e + 1) * length bs)
                         (loss_batch ++ more))).
Proof.
  intros Hbs. revert sess loss_batch train_losses.
  induction epochs as [|epochs IH]; intros sess loss_batch train_losses.
  - exists sess, [], []. simpl. rewrite !app_nil_r.
    split; [done|]. split; [done|]. split; [done|]. intros e He. lia.
  - simpl. rewrite Hbs.
    destruct (run_batches_appends bs zero_state sess loss_batch)
      as (st1 & sess1 & ls & -> & Hls).
    destruct (IH sess1 (loss_batch ++ ls)
                (train_losses ++ [mean (loss_batch ++ ls)]))
      as (sess' & more & tls & -> & Hmore & Htls & Hmean).
    exists sess', (ls ++ more), (mean (loss_batch ++ ls) :: tls).
    rewrite <- !app_assoc. split; [done|].
    split; [rewrite length_app; lia|]. split; [simpl; lia|].
    intros e He. destruct e as [|e]; simpl.
    + f_equal. f_equal. rewrite app_assoc.
      rewrite take_app_length'; [done|]. rewrite length_app. lia.
    + rewrite Hmean by lia. rewrite <- app_assoc, length_app.
      do 3 f_equal. lia.
Qed.

(** X14: with [1 <= batch_size <= max_rows] and [num_steps >= 1] the
    training cell ends without an exception after [epochs * n_batches]
    steps, one loss each, and with one entry of [train_losses] per epoch.
    As [loss_batch] is not emptied between the epochs, the entry of epoch
    [e] is the mean of all the losses since the first epoch, not of the
    losses of epoch [e]. *)
Theorem training_log (epochs : Z) (encoded : list Z) (N M : Z) (sess : session) :
  1 <= N <= Np.max_rows -> 1 <= M ->
  exists (sess' : session) (loss_batch train_losses : list loss),
    Training.train zero_state step mean epochs encoded N M sess
    = (sess', loss_batch, train_losses, None) /\
    Z.of_nat (length loss_batch)
    = Z.max 0 epochs * (Z.of_nat (length encoded) / (N * M)) /\
    Z.of_nat (length train_losses) = Z.max 0 epochs /\
    forall e : nat, Z.of_nat e < epochs ->
      train_losses !! e
      = Some (mean (take ((e + 1)
                          * Z.to_nat (Z.of_nat (length encoded) / (N * M)))
                         loss_batch)).
Proof.
  intros [HN _] HM. unfold Training.train.
  pose proof (get_batches_windows encoded N M HN HM) as Hbs.
  set (K := Z.to_nat (Z.of_nat (length encoded) / (N * M))) in *.
  match type of Hbs with _ = (?l, None) => set (bs := l) in * end.
  assert (HK : length bs = K) by (subst bs; by rewrite length_fmap, length_seq).
  destruct (run_epochs_log encoded N M bs (Z.to_nat epochs) sess [] [] Hbs)
    as (sess' & more & tls & Hrun & Hmore & Htls & Hmean).
  exists sess', more, tls. split; [exact Hrun|].
  pose proof (n_batches_nat encoded N M HN HM) as HKz. fold K in HKz.
  split; [rewrite Hmore, HK, HKz; lia|]. split; [lia|].
  intros e He. rewrite Hmean by lia. by rewrite HK.
Qed.

End TrainingFacts.

(** ** The sampling cell *)

Local Open Scope Q_scope.

Lemma new_array_spec (b : list Q) (w : world) :
  buffer (Sampling.new_array b w).1 (base (Sampling.new_array b w).2) = b /\
  entropy (Sampling.new_array b w).1 = entropy w /\
  drawn (Sampling.new_array b w).1 = drawn w.
Proof. unfold Sampling.new_array. simpl. split; [apply buffer_store|done]. Qed.

Lemma uniform_entropy (w w' : world) :
  entropy w' = entropy w -> uniform w -> uniform w'.
Proof. intros He Hu i. rewrite He. apply Hu. Qed.

Section SamplingFacts.
Context {rnn : Type}.
Variable zero_state : rnn.
Variable net : rnn -> Z -> list Q * rnn.
Variable argsort : list Q -> list nat.
Variable text : list N.
Hypothesis argsort_ok : forall p, is_argsort p (argsort p).

Let V : nat := length (vocab text).

(** [a] holds a row of [V] predictions in the store [w]. *)
Let holds_row (w : world) (a : ndarray) : Prop :=
  exists (s : rnn) (x : Z), buffer w (base a) = (net s x).1.

Local Lemma run_net_spec (s : rnn) (x : Z) (w : world) :
  exists (w' : world) (a : ndarray),
    Sampling.run_net net s x w = (w', (a, (net s x).2)) /\
    buffer w' (base a) = (net s x).1 /\
    entropy w' = entropy w /\ drawn w' = drawn w.
Proof.
  unfold Sampling.run_net. destruct (net s x) as [p s'].
  destruct (new_array_spec p w) as (Hb & He & Hd).
  destruct (Sampling.new_array p w) as [w' a]. by exists w', a.
Qed.

Local Lemma prime_loop_ok (prime : list N) (s : rnn)
    (predictions : option ndarray) (w : world) :
  Forall (fun c => c ∈ text) prime ->
  exists (w' : world) (predictions' : option ndarray) (s' : rnn),
    Sampling.prime_loop net text prime s predictions w
    = (w', inr (predictions', s')) /\
    entropy w' = entropy w /\ drawn w' = drawn w /\
    match prime with
    | [] => predictions' = predictions /\ w' = w
    | _ => exists a, predictions' = Some a /\ holds_row w' a
    end.
Proof.
  intros Hprime. revert s predictions w.
  induction Hprime as [|c prime Hc Hprime IH]; intros s predictions w.
  - by exists w, predictions, s.
  - simpl. unfold getitem.
    apply vocab_elem_of, list_elem_of_lookup_1 in Hc as [n Hn].
    assert (Hcode : vocab_to_int text !! c = Some (Z.of_nat n)).
    { apply vocab_to_int_lookup. by exists n. }
    rewrite Hcode.
    destruct (run_net_spec s (Z.of_nat n) w) as (w1 & a & -> & Hb & He & Hd).
    destruct (IH (net s (Z.of_nat n)).2 (Some a) w1)
      as (w' & p' & s' & -> & He' & Hd' & Hp').
    exists w', p', s'. split; [done|]. split; [congruence|]. split; [congruence|].
    destruct prime as [|c' prime'].
    + destruct Hp' as [-> ->]. exists a. split; [done|].
      by exists s, (Z.of_nat n).
    + exact Hp'.
Qed.

(** The network gives, at every call, a probability vector with one
    entry for each character of the vocabulary. *)
Let softmax_rows : Prop :=
  forall (s : rnn) (x : Z),
    is_distribution (net s x).1 /\ length (net s x).1 = V.

Local Lemma pick_and_append_ok (a : ndarray) (samples : list N) (w : world) :
  softmax_rows -> V <> 1%nat -> holds_row w a -> uniform w ->
  exists (w' : world) (c : nat) (ch : N),
    Sampling.pick_and_append argsort text a samples w
    = (w', inr (c, samples ++ [ch])) /\
    ch ∈ text /\ entropy w' = entropy w /\ drawn w' = S (drawn w).
Proof.
  intros Hnet HV (s & x & Hb) Hu. destruct (Hnet s x) as [Hd Hlen].
  rewrite <- Hb in Hd, Hlen.
  assert (HV0 : V <> 0%nat).
  { intros H0. rewrite H0 in Hlen. destruct Hd as [_ Hs].
    destruct (buffer w (base a)); [|done]. simpl in Hs. lra. }
  pose proof (pick_top_n_returns argsort argsort_ok a w (Z.of_nat V) 5 Hd
                ltac:(lia) ltac:(lia)
                ltac:(rewrite Hlen; unfold zeroed_count; simpl; lia)) as Hres.
  set (c := draw _ _) in Hres.
  apply (pick_top_n_inr argsort argsort_ok) in Hres as Hinr; [|done].
  destruct Hinr as (_ & _ & _ & _ & y & Hy & _).
  apply lookup_lt_Some in Hy. rewrite Hlen in Hy.
  destruct (lookup_lt_is_Some_2 (vocab text) c Hy) as [ch Hch].
  assert (Hlook : int_to_vocab text !! Z.of_nat c = Some ch).
  { apply int_to_vocab_lookup. by exists c. }
  unfold Sampling.pick_and_append. fold V. rewrite Hres.
  unfold getitem. rewrite Hlook.
  eexists _, c, ch. split; [done|]. split; [|done].
  apply vocab_elem_of. by eapply list_elem_of_lookup_2.
Qed.

Local Lemma sample_loop_ok (n : nat) (c : nat) (s : rnn) (samples : list N)
    (w : world) :
  softmax_rows -> V <> 1%nat -> uniform w ->
  exists (w' : world) (out : list N),
    Sampling.sample_loop net argsort text n c s samples w
    = (w', inr (samples ++ out)) /\
    length out = n /\ Forall (fun ch => ch ∈ text) out /\
    drawn w' = (drawn w + n)%nat.
Proof.
  intros Hnet HV. revert c s samples w.
  induction n as [|n IH]; intros c s samples w Hu.
  - exists w, []. simpl. rewrite app_nil_r. by repeat split; try lia.
  - simpl.
    destruct (run_net_spec s (Z.of_nat c) w) as (w1 & a & -> & Hb & He & Hd).
    destruct (pick_and_append_ok a samples w1 Hnet HV)
      as (w2 & c' & ch & -> & Hch & He2 & Hd2).
    { by exists s, (Z.of_nat c). }
    { by apply (uniform_entropy w). }
    destruct (IH c' (net s (Z.of_nat c)).2 (samples ++ [ch]) w2)
      as (w' & out & -> & Hlen & Hout & Hd').
    { apply (uniform_entropy w); [congruence|done]. }
    exists w', (ch :: out). rewrite <- app_assoc. split; [done|].
    split; [simpl; lia|]. split; [by constructor|]. lia.
Qed.

(** X15: when the network gives probability vectors over a vocabulary of
    [V <> 1] characters and [prime] is a non-empty string of characters of
    the corpus, the sampling cell raises nothing and prints [prime]
    followed by [1 + n_samples] characters of the corpus, one sample of
    the random source each. *)
Theorem sample_output (prime : list N) (n_samples : Z) (w : world) :
  softmax_rows -> V <> 1%nat -> uniform w ->
  prime <> [] -> Forall (fun c => c ∈ text) prime ->
  exists (w' : world) (out : list N),
    Sampling.sample zero_state net argsort text prime n_samples w
    = (w', inr (prime ++ out)) /\
    length out = S (Z.to_nat n_samples) /\
    Forall (fun ch => ch ∈ text) out /\
    drawn w' = (drawn w + S (Z.to_nat n_samples))%nat.
Proof.
  intros Hnet HV Hu Hne Hprime. unfold Sampling.sample.
  destruct (prime_loop_ok prime zero_state None w Hprime)
    as (w1 & p & s1 & -> & He1 & Hd1 & Hp).
  destruct prime as [|c0 prime0]; [done|].
  destruct Hp as (a & -> & Ha).
  destruct (pick_and_append_ok a (c0 :: prime0) w1 Hnet HV Ha)
    as (w2 & c & ch & -> & Hch & He2 & Hd2).
  { by apply (uniform_entropy w). }
  destruct (sample_loop_ok (Z.to_nat n_samples) c s1 ((c0 :: prime0) ++ [ch]) w2
              Hnet HV)
    as (w' & out & -> & Hlen & Hout & Hd').
  { apply (uniform_entropy w); [congruence|done]. }
  exists w', (ch :: out). rewrite <- app_assoc. split; [done|].
  split; [simpl; lia|]. split; [by constructor|]. lia.
Qed.

(** X16: the sampling cell fails with [NameError] for an empty [prime],
    with [KeyError] when [prime] has a character that the corpus does not
    contain, and, for a corpus with a single distinct character, with the
    [IndexError] of [pick_top_n] before any character is drawn. *)
Theorem sample_errors (prime : list N) (n_samples : Z) (w : world) :
  (prime = [] ->
   Sampling.sample zero_state net argsort text prime n_samples w
   = (w, inl NameError)) /\
  (~ Forall (fun c => c ∈ text) prime ->
   exists w',
     Sampling.sample zero_state net argsort text prime n_samples w
     = (w', inl KeyError)) /\
  (V = 1%nat -> (forall s x, length (net s x).1 = V) ->
   prime <> [] -> Forall (fun c => c ∈ text) prime ->
   exists w',
     Sampling.sample zero_state net argsort text prime n_samples w
     = (w', inl (Raised IndexError)) /\ drawn w' = drawn w).
Proof.
  split; [|split].
  - by intros ->.
  - intros Hbad. unfold Sampling.sample.
    assert (Hloop : forall s p w0,
              exists w', Sampling.prime_loop net text prime s p w0
                         = (w', inl KeyError)).
    { induction prime as [|c prime' IH]; intros s p w0.
      - destruct Hbad. constructor.
      - simpl. unfold getitem.
        destruct (vocab_to_int text !! c) as [x|] eqn:Hc; [|by eexists].
        destruct (run_net_spec s x w0) as (w1 & a & -> & _).
        apply IH. intros Hrest. apply Hbad. constructor; [|done].
        apply vocab_to_int_lookup in Hc as (n & _ & Hn).
        apply vocab_elem_of. by eapply list_elem_of_lookup_2. }
    destruct (Hloop zero_state None w) as [w' ->]. by exists w'.
  - intros HV Hlen Hne Hprime. unfold Sampling.sample.
    destruct (prime_loop_ok prime zero_state None w Hprime)
      as (w1 & p & s1 & -> & He1 & Hd1 & Hp).
    destruct prime as [|c0 prime0]; [done|].
    destruct Hp as (a & -> & s & x & Hb).
    unfold Sampling.pick_and_append.
    rewrite (pick_top_n_rank0 argsort) by (rewrite Hb, Hlen; done).
    by exists w1.
Qed.

End SamplingFacts.

(** X17: the codes fit the [int32] array they are stored in: for a text
    of Unicode code points (below [0x110000]) every code of the encoded
    text is below [2^31]. *)
Theorem encoded_fits_int32 (text : list N) (enc : list Z) :
  Forall (fun c => (c < 1114112)%N) text ->
  encoded text = inr enc ->
  Forall (fun z => (0 <= z < 2 ^ 31)%Z) enc.
Proof.
  intros Hcp Henc.
  assert (Hsize : (length (vocab text) <= N.to_nat 1114112)%nat).
  { pose proof (vocab_NoDup text) as Hnd.
    apply (NoDup_fmap_2 N.to_nat) in Hnd.
    assert (Hsub : forall n, n ∈ N.to_nat <$> vocab text ->
                             n ∈ seq 0 (N.to_nat 1114112)).
    { intros n Hn. apply list_elem_of_fmap in Hn as (c & -> & Hc).
      apply (proj1 (vocab_elem_of text c)) in Hc.
      pose proof (proj1 (Forall_forall _ _) Hcp c Hc) as Hlt. cbv beta in Hlt.
      apply elem_of_seq. lia. }
    pose proof (submseteq_length _ _ (NoDup_submseteq _ _ Hnd Hsub)) as Hle.
    by rewrite length_fmap, length_seq in Hle. }
  apply Forall_forall. intros z Hz.
  pose proof (encoded_code_bound text enc z Henc Hz). lia.
Qed.

(** ** Instances of the further properties *)

Lemma encoded_codes_are_dense_witness :
  length (vocab Toys.hello) = size (list_to_set Toys.hello : gset N) /\
  forall z : Z,
    z ∈ [1; 0; 2; 2; 3]%Z <-> (0 <= z < Z.of_nat (length (vocab Toys.hello)))%Z.
Proof.
  apply (encoded_codes_are_dense Toys.hello [1; 0; 2; 2; 3]%Z). reflexivity.
Defined.

Lemma vocab_to_int_order_preserving_witness :
  (101 < 104)%N <-> (0 < 1)%Z.
Proof.
  apply (vocab_to_int_order_preserving Toys.hello 101 104 0 1); reflexivity.
Defined.

Lemma inputs_reassemble_witness :
  concat ((fun i : nat =>
             concat ((fun b : batch => default [] (b.1 !! i))
                       <$> (get_batches (arange 0 23) 2 5).1))
            <$> seq 0 (Z.to_nat 2))
  = Py.slice (arange 0 23) 0
      (Z.of_nat (length (arange 0 23)) / (2 * 5) * (2 * 5))%Z.
Proof.
  apply (inputs_reassemble (arange 0 23) 2 5); lia.
Defined.

Lemma targets_reassemble_witness :
  concat ((fun b : batch => default [] (b.2 !! 1%nat))
            <$> (get_batches (arange 0 23) 2 5).1)
  = [11; 12; 13; 14; 15; 16; 17; 18; 19; 0]%Z.
Proof.
  apply (targets_reassemble (arange 0 23) 2 5); [lia | lia | simpl; lia | lia].
Defined.

Lemma batches_hold_symbols_witness :
  Forall (fun b : batch =>
            Forall (Forall (fun z => 0 <= z < 23)%Z) b.1 /\
            Forall (Forall (fun z => 0 <= z < 23)%Z) b.2)
         (get_batches (arange 0 23) 2 5).1.
Proof.
  apply (batches_hold_symbols (arange 0 23) 2 5 23); [lia | lia |].
  apply Forall_fmap, Forall_seq. intros j Hj. simpl. lia.
Defined.

Lemma distribution_example :
  is_distribution
    (buffer (Examples.world_of [1 # 2; 1 # 8; 1 # 4; 1 # 8]) (base Examples.preds0)).
Proof. split; [|reflexivity]. repeat constructor; discriminate. Defined.

Lemma pick_top_n_monotone_witness :
  (pick_top_n stable_argsort Examples.preds0 4 2
     (Examples.world_of [1 # 2; 1 # 8; 1 # 4; 1 # 8])).2 = inr 0%nat /\
  (pick_top_n stable_argsort Examples.preds0 4 2
     (World {[0%nat := [1 # 2; 1 # 8; 1 # 4; 1 # 8]]} (fun _ => 7 # 8) 0)).2
  = inr 2%nat /\
  (0 <= 2)%nat.
Proof.
  split; [by vm_compute|]. split; [by vm_compute|].
  apply (pick_top_n_monotone stable_argsort stable_argsort_ok
           Examples.preds0
           (Examples.world_of [1 # 2; 1 # 8; 1 # 4; 1 # 8]) 4 2
           (World {[0%nat := [1 # 2; 1 # 8; 1 # 4; 1 # 8]]} (fun _ => 7 # 8) 0)
           0 2).
  - reflexivity.
  - vm_compute. discriminate.
  - by vm_compute.
  - by vm_compute.
Defined.

Lemma pick_top_n_entropy_and_exceptions_witness :
  drawn (pick_top_n stable_argsort Examples.preds0 4 2
           (Examples.world_of [1 # 2; 1 # 8; 1 # 4; 1 # 8])).1
  = S (drawn (Examples.world_of [1 # 2; 1 # 8; 1 # 4; 1 # 8])).
Proof.
  exact (pick_top_n_entropy_and_exceptions stable_argsort stable_argsort_ok
           Examples.preds0 (Examples.world_of [1 # 2; 1 # 8; 1 # 4; 1 # 8]) 4 2).
Defined.

Lemma pick_top_n_raises_iff_witness :
  exists e, (pick_top_n stable_argsort Examples.preds0 2 5
               (Examples.world_of [0; 0])).2 = inl e.
Proof.
  apply (pick_top_n_raises_iff stable_argsort stable_argsort_ok
           Examples.preds0 (Examples.world_of [0; 0]) 2 5).
  - discriminate.
  - repeat constructor; discriminate.
  - right. reflexivity.
Defined.

Lemma top_one_is_argmax_witness :
  exists c : nat,
    stable_argsort [1 # 2; 1 # 8; 1 # 4; 1 # 8] !! (4 - 1)%nat = Some c /\
    (pick_top_n stable_argsort Examples.preds0 4 1
       (Examples.world_of [1 # 2; 1 # 8; 1 # 4; 1 # 8])).2 = inr c /\
    forall (j : nat) (x : Q),
      [1 # 2; 1 # 8; 1 # 4; 1 # 8] !! j = Some x ->
      x <= nth c [1 # 2; 1 # 8; 1 # 4; 1 # 8] 0.
Proof.
  exact (top_one_is_argmax stable_argsort stable_argsort_ok Examples.preds0
           (Examples.world_of [1 # 2; 1 # 8; 1 # 4; 1 # 8])
           (uniform_world_of _) distribution_example ltac:(discriminate)).
Defined.

Lemma second_call_leaves_preds_witness :
  Forall2 Qeq
    (buffer (pick_top_n stable_argsort Examples.preds0 4 2
               (pick_top_n stable_argsort Examples.preds0 4 2
                  (Examples.world_of [1 # 2; 1 # 8; 1 # 4; 1 # 8])).1).1
            (base Examples.preds0))
    (buffer (pick_top_n stable_argsort Examples.preds0 4 2
               (Examples.world_of [1 # 2; 1 # 8; 1 # 4; 1 # 8])).1
            (base Examples.preds0)).
Proof.
  apply (second_call_leaves_preds stable_argsort Examples.preds0
           (Examples.world_of [1 # 2; 1 # 8; 1 # 4; 1 # 8]) 4 4 2
           stable_argsort_ok).
  - discriminate.
  - repeat constructor; discriminate.
Defined.

Lemma training_log_witness :
  exists (sess' : nat) (loss_batch train_losses : list Z),
    Training.train 0%nat Toys.step Toys.total 3 (arange 0 23) 2 5 0%nat
    = (sess', loss_batch, train_losses, None) /\
    Z.of_nat (length loss_batch)
    = (Z.max 0 3 * (Z.of_nat (length (arange 0 23)) / (2 * 5)))%Z /\
    Z.of_nat (length train_losses) = Z.max 0 3 /\
    forall e : nat, (Z.of_nat e < 3)%Z ->
      train_losses !! e
      = Some (Toys.total
                (take ((e + 1)
                       * Z.to_nat (Z.of_nat (length (arange 0 23)) / (2 * 5)))
                      loss_batch)).
Proof.
  apply (training_log 0%nat Toys.step Toys.total 3 (arange 0 23) 2 5 0%nat);
    unfold Np.max_rows; lia.
Defined.

Lemma sample_output_witness :
  exists (w' : world) (out : list N),
    Sampling.sample 0%nat Toys.net stable_argsort Toys.hello Toys.he 4
      (Examples.world_of [])
    = (w', inr (Toys.he ++ out)) /\
    length out = S (Z.to_nat 4) /\
    Forall (fun ch => ch ∈ Toys.hello) out /\
    drawn w' = (drawn (Examples.world_of []) + S (Z.to_nat 4))%nat.
Proof.
  apply (sample_output 0%nat Toys.net stable_argsort Toys.hello
           stable_argsort_ok Toys.he 4 (Examples.world_of [])).
  - intros s x. split; [|reflexivity].
    split; [|reflexivity]. repeat constructor; discriminate.
  - discriminate.
  - apply uniform_world_of.
  - discriminate.
  - repeat constructor; apply list_elem_of_In; simpl; tauto.
Defined.

Lemma encoded_fits_int32_witness :
  Forall (fun z => (0 <= z < 2 ^ 31)%Z) [1; 0; 2; 2; 3]%Z.
Proof.
  apply (encoded_fits_int32 Toys.hello [1; 0; 2; 2; 3]%Z); [|reflexivity].
  repeat constructor.
Defined.
